(** * frr_exporter: the collector orchestrator ([collector/collector.go])

    A shallow embedding of [Exporters.Describe], [Exporters.Collect],
    [processErrors] and [runCollector], with the goroutines of one
    [Collect] call modelled as an interleaving small-step machine:

    - the scheduler picks a goroutine ([Main] or [Task i]); the picked
      goroutine runs one statement, or nothing happens when it is blocked,
      has exited, or does not exist;
    - [errCh] is a buffered channel with its capacity, buffer and closed
      flag; [wg] is the WaitGroup counter;
    - the sink [ch] is drained by the Prometheus registry, so a send on it
      always goes through; what is sent is recorded, in order, in a history
      together with the other observable actions of the goroutines;
    - a collector's [PromCollector.Collect] and [Errors.CollectErrors] are
      external code: a collector is given by what these calls do in the
      invocation at hand (the metrics written, the errors returned), and both
      calls return;
    - [Collect] invocations do not overlap ([frrTotalScrapeCount] is a plain
      package variable). *)

From Stdlib Require Import ZArith Lia Floats Uint63.
From stdpp Require Import base list strings.

Open Scope Z_scope.

(** ** float64 on the naturals

    [frrTotalScrapeCount] is a [float64] that only ever holds a natural
    number.  On naturals the sum of two float64 is the exact sum rounded to
    a 53-bit significand, ties to even. *)
Module F64.

Definition round (z : Z) : Z :=
  let e := Z.log2 z - 52 in
  if e <=? 0 then z
  else
    let q := Z.shiftr z e in
    let r := Z.land z (Z.ones e) in
    let half := Z.shiftl 1 (e - 1) in
    let q' := if (half <? r) || ((r =? half) && Z.odd q) then q + 1 else q in
    Z.shiftl q' e.

Definition add (x y : Z) : Z := round (x + y).

(** The first natural that [x + 1] cannot step over. *)
Definition limit : Z := 2 ^ 53.

End F64.

(** ** The Prometheus client, as far as the orchestrator uses it *)

Record Desc := NewDesc {
  fqName : string;
  help : string;
  variableLabels : list string
}.

Inductive ValueType := CounterValue | GaugeValue | UntypedValue.

Record Metric := MkMetric {
  desc : Desc;
  valueType : ValueType;
  value : Z;
  labelValues : list string
}.

(** [MustNewConstMetric] panics ([None]) when the number of label values
    differs from the number of variable labels of the descriptor. *)
Definition MustNewConstMetric (d : Desc) (t : ValueType) (v : Z)
    (lvs : list string) : option Metric :=
  if Nat.eqb (length lvs) (length (variableLabels d))
  then Some (MkMetric d t v lvs) else None.

(** ** Package-level declarations *)

Definition namespace : string := "frr".

Definition frrScrapesTotal : Desc :=
  NewDesc (namespace +:+ "_scrapes_total")
          "Total number of times FRR has been scraped." [].
Definition frrScrapeErrTotal : Desc :=
  NewDesc (namespace +:+ "_scrape_errors_total")
          "Total number of errors from collector scrapes." [].
Definition frrScrapeDuration : Desc :=
  NewDesc (namespace +:+ "_scrape_duration_seconds")
          "Time it took for a collector's scrape to complete." ["collector"].
Definition frrCollectorUp : Desc :=
  NewDesc (namespace +:+ "_collector_up")
          "Whether the collector's last scrape was successful (1 = successful, 0 = unsuccessful)."
          ["collector"].
Definition frrUp : Desc :=
  NewDesc (namespace +:+ "_up") "Whether FRR is currently up." [].

Definition error := string.

Record CLIHelper := {
  Help : string;
  Name : string;
  EnabledByDefault : bool
}.

(** What the two methods of a [prometheus.Collector] write on the channel
    they are handed. *)
Record PromCollector := {
  Describe_writes : list Desc;
  Collect_writes : list Metric
}.

(** What [CollectErrors()] returns after that [Collect]. *)
Record CollectErrors := {
  CollectErrors_returns : list error
}.

Record Collector := {
  cliHelper : CLIHelper;
  promCollector : PromCollector;
  Errors : CollectErrors
}.

Record Exporters := NewExporter {
  Collectors : list Collector
}.

Definition collects (c : Collector) : list Metric :=
  Collect_writes (promCollector c).
Definition errorsOf (c : Collector) : list error :=
  CollectErrors_returns (Errors c).
Definition nameOf (c : Collector) : string := Name (cliHelper c).

(** [Describe]: the descriptors written to the channel, in order. *)
Definition Describe (e : Exporters) : list Desc :=
  [frrScrapesTotal; frrScrapeErrTotal; frrUp; frrScrapeDuration; frrCollectorUp]
  ++ concat (map (fun c => Describe_writes (promCollector c)) (Collectors e)).

(** ** Channels *)

Record Chan := {
  buf : list Z;
  cap : nat;
  closed : bool
}.

Definition make_chan (n : nat) : Chan :=
  {| buf := []; cap := n; closed := false |}.

Inductive SendResult := SendOk (c : Chan) | SendBlocks | SendPanics.

Definition chan_send (v : Z) (c : Chan) : SendResult :=
  if closed c then SendPanics
  else if Nat.ltb (length (buf c)) (cap c)
       then SendOk {| buf := buf c ++ [v]; cap := cap c; closed := closed c |}
       else SendBlocks.

Inductive RecvResult := RecvOk (v : Z) (c : Chan) | RecvClosed | RecvBlocks.

Definition chan_recv (c : Chan) : RecvResult :=
  match buf c with
  | v :: rest => RecvOk v {| buf := rest; cap := cap c; closed := closed c |}
  | [] => if closed c then RecvClosed else RecvBlocks
  end.

Definition chan_close (c : Chan) : option Chan :=
  if closed c then None
  else Some {| buf := buf c; cap := cap c; closed := true |}.

(** [processErrors] on its own: the loop receives until the channel reports
    closed.  [None] is a receive that blocks for ever (channel left open
    with an empty buffer and no sender). *)
Fixpoint processErrors_from (pending : list Z) (is_closed : bool)
    (errors : Z) : option Z :=
  match pending with
  | _ :: rest => processErrors_from rest is_closed (errors + 1)
  | [] => if is_closed then Some errors else None
  end.

Definition processErrors (errCh : Chan) : option Z :=
  processErrors_from (buf errCh) (closed errCh) 0.

(** ** Goroutines *)

Inductive Gid := Main | Task (i : nat).

#[global] Instance Gid_eq_dec : EqDecision Gid.
Proof. solve_decision. Defined.

(** Program points of [Collect] (the main goroutine of the invocation). *)
Inductive MainPC :=
| MIncr                      (* frrTotalScrapeCount++ *)
| MSendScrapes               (* ch <- frrScrapesTotal metric *)
| MMake                      (* errCh := make(chan int, 1024); wg := ... *)
| MLoop (k : nat)            (* range e.Collectors, at index k: wg.Add(1) *)
| MGo (k : nat)              (* go runCollector(ch, errCh, collector, wg) *)
| MWait                      (* wg.Wait() *)
| MClose                     (* close(errCh) *)
| MDrain (errors : Z)        (* processErrors: _, more := <-errCh *)
| MCompare (errCount : Z)    (* if errCount < len(e.Collectors) *)
| MSendUp (frrState : Z)     (* ch <- frrUp metric *)
| MReturn.

(** Program points of [runCollector]. *)
Inductive TaskPC :=
| TStart                                     (* startTime := time.Now() *)
| TProduce (startTime : Z) (k : nat)         (* in PromCollector.Collect(ch), k metrics written *)
| TErrors (startTime : Z)                    (* errors := CollectErrors(); if len(errors) > 0 *)
| TSignal (startTime : Z) (errors : list error)         (* errCh <- 1 *)
| TUp0 (startTime : Z) (errors : list error)            (* ch <- frrCollectorUp 0 *)
| TLog (startTime : Z) (errors : list error) (k : nat)  (* range errors, at index k: log.Errorf *)
| TUp1 (startTime : Z)                       (* ch <- frrCollectorUp 1 *)
| TDuration (startTime : Z)                  (* ch <- frrScrapeDuration *)
| TDefer                                     (* deferred wg.Done() *)
| TExit.

(** What the goroutines do, as seen from outside. *)
Inductive Event :=
| EvSend (g : Gid) (m : Metric)         (* ch <- m by the orchestrator's own code *)
| EvCollected (i : nat) (m : Metric)    (* ch <- m inside collector i's Collect *)
| EvCollectReturned (i : nat)           (* collector i's Collect returned *)
| EvErrorsReturned (i : nat) (es : list error) (* its CollectErrors() returned es *)
| EvSignal (i : nat)                    (* errCh <- 1 went through *)
| EvLog (i : nat) (name : string) (err : error)
| EvGo (i : nat)                        (* goroutine for Collectors[i] started *)
| EvDone (i : nat)                      (* wg.Done() *)
| EvJoined                              (* wg.Wait() returned *)
| EvClosed                              (* close(errCh) *)
| EvDrained (errCount : Z).             (* processErrors returned errCount *)

#[global] Instance Desc_eq_dec : EqDecision Desc.
Proof. solve_decision. Defined.
#[global] Instance ValueType_eq_dec : EqDecision ValueType.
Proof. solve_decision. Defined.
#[global] Instance Metric_eq_dec : EqDecision Metric.
Proof. solve_decision. Defined.
#[global] Instance MainPC_eq_dec : EqDecision MainPC.
Proof. solve_decision. Defined.
#[global] Instance TaskPC_eq_dec : EqDecision TaskPC.
Proof. solve_decision. Defined.
#[global] Instance Event_eq_dec : EqDecision Event.
Proof. solve_decision. Defined.

Definition owner (ev : Event) : Gid :=
  match ev with
  | EvSend g _ => g
  | EvCollected i _ | EvCollectReturned i | EvErrorsReturned i _
  | EvSignal i | EvLog i _ _ | EvDone i => Task i
  | EvGo _ | EvJoined | EvClosed | EvDrained _ => Main
  end.

Record State := {
  frrTotalScrapeCount : Z;      (* float64, see F64 *)
  frrTotalErrorCount : Z;
  now : Z;                      (* the clock read by time.Now / time.Since *)
  main : MainPC;
  tasks : list TaskPC;          (* goroutine i runs runCollector for Collectors[i] *)
  errCh : option Chan;
  wg : Z;
  trace : list Event;           (* oldest first *)
  panicked : bool
}.

Definition initial (count errCount : Z) : State :=
  {| frrTotalScrapeCount := count; frrTotalErrorCount := errCount; now := 0;
     main := MIncr; tasks := []; errCh := None; wg := 0; trace := [];
     panicked := false |}.

(** The state of a freshly started process. *)
Definition process_start : State := initial 0 0.

Definition with_count (v : Z) (s : State) : State :=
  {| frrTotalScrapeCount := v; frrTotalErrorCount := frrTotalErrorCount s;
     now := now s; main := main s; tasks := tasks s; errCh := errCh s;
     wg := wg s; trace := trace s; panicked := panicked s |}.
Definition with_main (pc : MainPC) (s : State) : State :=
  {| frrTotalScrapeCount := frrTotalScrapeCount s;
     frrTotalErrorCount := frrTotalErrorCount s;
     now := now s; main := pc; tasks := tasks s; errCh := errCh s;
     wg := wg s; trace := trace s; panicked := panicked s |}.
Definition with_tasks (ts : list TaskPC) (s : State) : State :=
  {| frrTotalScrapeCount := frrTotalScrapeCount s;
     frrTotalErrorCount := frrTotalErrorCount s;
     now := now s; main := main s; tasks := ts; errCh := errCh s;
     wg := wg s; trace := trace s; panicked := panicked s |}.
Definition with_errCh (c : Chan) (s : State) : State :=
  {| frrTotalScrapeCount := frrTotalScrapeCount s;
     frrTotalErrorCount := frrTotalErrorCount s;
     now := now s; main := main s; tasks := tasks s; errCh := Some c;
     wg := wg s; trace := trace s; panicked := panicked s |}.
Definition with_wg (n : Z) (s : State) : State :=
  {| frrTotalScrapeCount := frrTotalScrapeCount s;
     frrTotalErrorCount := frrTotalErrorCount s;
     now := now s; main := main s; tasks := tasks s; errCh := errCh s;
     wg := n; trace := trace s; panicked := panicked s |}.
Definition emit (ev : Event) (s : State) : State :=
  {| frrTotalScrapeCount := frrTotalScrapeCount s;
     frrTotalErrorCount := frrTotalErrorCount s;
     now := now s; main := main s; tasks := tasks s; errCh := errCh s;
     wg := wg s; trace := trace s ++ [ev]; panicked := panicked s |}.
Definition panic (s : State) : State :=
  {| frrTotalScrapeCount := frrTotalScrapeCount s;
     frrTotalErrorCount := frrTotalErrorCount s;
     now := now s; main := main s; tasks := tasks s; errCh := errCh s;
     wg := wg s; trace := trace s; panicked := true |}.
Definition tick (s : State) : State :=
  {| frrTotalScrapeCount := frrTotalScrapeCount s;
     frrTotalErrorCount := frrTotalErrorCount s;
     now := now s + 1; main := main s; tasks := tasks s; errCh := errCh s;
     wg := wg s; trace := trace s; panicked := panicked s |}.

(** [ch <- prometheus.MustNewConstMetric(d, t, v, lvs...)] in goroutine [g]. *)
Definition send_metric (g : Gid) (d : Desc) (t : ValueType) (v : Z)
    (lvs : list string) (s : State) : State :=
  match MustNewConstMetric d t v lvs with
  | Some m => emit (EvSend g m) s
  | None => panic s
  end.

(** ** [Collect] *)

Definition errCh_capacity : nat := 1024.

Definition step_main (e : Exporters) (s : State) : option State :=
  match main s with
  | MIncr =>
      Some (with_main MSendScrapes
              (with_count (F64.add (frrTotalScrapeCount s) 1) s))
  | MSendScrapes =>
      Some (with_main MMake
              (send_metric Main frrScrapesTotal CounterValue
                 (frrTotalScrapeCount s) [] s))
  | MMake =>
      Some (with_main (MLoop 0)
              (with_wg 0 (with_errCh (make_chan errCh_capacity) s)))
  | MLoop k =>
      match Collectors e !! k with
      | Some _ => Some (with_main (MGo k) (with_wg (wg s + 1) s))
      | None => Some (with_main MWait s)
      end
  | MGo k =>
      Some (with_main (MLoop (S k))
              (emit (EvGo k) (with_tasks (tasks s ++ [TStart]) s)))
  | MWait =>
      if wg s =? 0 then Some (with_main MClose (emit EvJoined s)) else None
  | MClose =>
      match errCh s with
      | Some c =>
          match chan_close c with
          | Some c' => Some (with_main (MDrain 0) (emit EvClosed (with_errCh c' s)))
          | None => Some (panic s)
          end
      | None => Some (panic s)
      end
  | MDrain errors =>
      match errCh s with
      | Some c =>
          match chan_recv c with
          | RecvOk _ c' => Some (with_main (MDrain (errors + 1)) (with_errCh c' s))
          | RecvClosed => Some (with_main (MCompare errors) (emit (EvDrained errors) s))
          | RecvBlocks => None
          end
      | None => None
      end
  | MCompare errCount =>
      let frrState :=
        if errCount <? Z.of_nat (length (Collectors e)) then 1 else 0 in
      Some (with_main (MSendUp frrState) s)
  | MSendUp frrState =>
      Some (with_main MReturn (send_metric Main frrUp GaugeValue frrState [] s))
  | MReturn => None
  end.

(** ** [runCollector] for [Collectors[i]] *)

Definition with_task (i : nat) (pc : TaskPC) (s : State) : State :=
  with_tasks (<[i := pc]> (tasks s)) s.

Definition step_task (e : Exporters) (i : nat) (s : State) : option State :=
  match tasks s !! i, Collectors e !! i with
  | Some pc, Some collector =>
      match pc with
      | TStart => Some (with_task i (TProduce (now s) 0) s)
      | TProduce startTime k =>
          match collects collector !! k with
          | Some m =>
              Some (with_task i (TProduce startTime (S k)) (emit (EvCollected i m) s))
          | None =>
              Some (with_task i (TErrors startTime) (emit (EvCollectReturned i) s))
          end
      | TErrors startTime =>
          let errors := errorsOf collector in
          Some (with_task i
                  (if Nat.ltb 0 (length errors) then TSignal startTime errors
                   else TUp1 startTime)
                  (emit (EvErrorsReturned i errors) s))
      | TSignal startTime errors =>
          match errCh s with
          | Some c =>
              match chan_send 1 c with
              | SendOk c' =>
                  Some (with_task i (TUp0 startTime errors)
                          (emit (EvSignal i) (with_errCh c' s)))
              | SendBlocks => None
              | SendPanics => Some (panic s)
              end
          | None => None
          end
      | TUp0 startTime errors =>
          Some (with_task i (TLog startTime errors 0)
                  (send_metric (Task i) frrCollectorUp GaugeValue 0
                     [nameOf collector] s))
      | TLog startTime errors k =>
          match errors !! k with
          | Some err =>
              Some (with_task i (TLog startTime errors (S k))
                      (emit (EvLog i (nameOf collector) err) s))
          | None => Some (with_task i (TDuration startTime) s)
          end
      | TUp1 startTime =>
          Some (with_task i (TDuration startTime)
                  (send_metric (Task i) frrCollectorUp GaugeValue 1
                     [nameOf collector] s))
      | TDuration startTime =>
          Some (with_task i TDefer
                  (send_metric (Task i) frrScrapeDuration GaugeValue
                     (now s - startTime) [nameOf collector] s))
      | TDefer =>
          if wg s - 1 <? 0 then Some (panic s)
          else Some (with_task i TExit (emit (EvDone i) (with_wg (wg s - 1) s)))
      | TExit => None
      end
  | _, _ => None
  end.

(** ** The scheduler *)

Definition step (e : Exporters) (g : Gid) (s : State) : option State :=
  if panicked s then None
  else
    tick <$> match g with
             | Main => step_main e s
             | Task i => step_task e i s
             end.

Definition sched_step (e : Exporters) (s : State) (g : Gid) : State :=
  match step e g s with
  | Some s' => s'
  | None => s
  end.

(** The state after the scheduler has made the picks of [sched], in order. *)
Definition exec (e : Exporters) (sched : list Gid) (s : State) : State :=
  fold_left (sched_step e) sched s.

(** The metrics that reached the sink, in order. *)
Definition sink_of (ev : Event) : option Metric :=
  match ev with
  | EvSend _ m | EvCollected _ m => Some m
  | _ => None
  end.
Definition sink (s : State) : list Metric := omap sink_of (trace s).

Module Scenario.
Definition mk (name : string) (ms : list Metric) (es : list error) : Collector :=
  {| cliHelper := {| Help := "help"; Name := name; EnabledByDefault := true |};
     promCollector := {| Describe_writes := map desc ms; Collect_writes := ms |};
     Errors := {| CollectErrors_returns := es |} |}.
Definition sample (n : Z) : Metric :=
  MkMetric (NewDesc "frr_bgp_peers" "peers" []) GaugeValue n [].
Definition A := mk "A" (map sample [1;2;3;4;5;6;7;8;9;10]) [].
Definition B := mk "B" (map sample [1;2;3]) ["e1"; "e2"].
Definition C := mk "C" [] [].
Definition abc := NewExporter [A; B; C].
Definition round_robin (n : nat) : list Gid :=
  concat (replicate n [Main; Task 0%nat; Task 1%nat; Task 2%nat]).
End Scenario.


(** ** Derived notions used by the statements *)

Definition scrapesMetric (v : Z) : Metric :=
  MkMetric frrScrapesTotal CounterValue v [].
Definition upMetric (v : Z) : Metric :=
  MkMetric frrUp GaugeValue v [].
Definition collectorUpMetric (v : Z) (name : string) : Metric :=
  MkMetric frrCollectorUp GaugeValue v [name].
Definition durationMetric (d : Z) (name : string) : Metric :=
  MkMetric frrScrapeDuration GaugeValue d [name].

(** [len(errors) > 0] for what the collector's [CollectErrors()] returns. *)
Definition failing (c : Collector) : bool := Nat.ltb 0 (length (errorsOf c)).

Fixpoint failures (cs : list Collector) : Z :=
  match cs with
  | [] => 0
  | c :: cs' => (if failing c then 1 else 0) + failures cs'
  end.

(** The value of [frrState] as a function of the collectors' outcomes. *)
Definition liveness (cs : list Collector) : Z :=
  if failures cs <? Z.of_nat (length cs) then 1 else 0.

(** The events of one goroutine, in order. *)
Definition proj (g : Gid) (tr : list Event) : list Event :=
  filter (fun ev => owner ev = g) tr.

Definition returned (s : State) : Prop := main s = MReturn.

(** A sum over the started goroutines, each paired with its collector. *)
Fixpoint wsum (w : Collector -> TaskPC -> nat) (cs : list Collector)
    (ts : list TaskPC) : nat :=
  match cs, ts with
  | c :: cs', pc :: ts' => (w c pc + wsum w cs' ts')%nat
  | _, _ => 0%nat
  end.

Definition w_live (c : Collector) (pc : TaskPC) : nat :=
  match pc with TExit => 0%nat | _ => 1%nat end.

Definition past_signal (pc : TaskPC) : bool :=
  match pc with
  | TUp0 _ _ | TLog _ _ _ | TDuration _ | TDefer | TExit => true
  | _ => false
  end.

Definition w_sig (c : Collector) (pc : TaskPC) : nat :=
  if failing c && past_signal pc then 1%nat else 0%nat.

Definition w_unsig (c : Collector) (pc : TaskPC) : nat :=
  if failing c && negb (past_signal pc) then 1%nat else 0%nat.

(** ** The counter's arithmetic *)

Lemma F64_add_one_exact (x : Z) :
  0 <= x < F64.limit -> F64.add x 1 = x + 1.
Proof.
  unfold F64.limit, F64.add. intros Hx.
  destruct (Z.eq_dec (x + 1) (2 ^ 53)) as [-> | Hne]; [reflexivity |].
  unfold F64.round.
  assert (Hlog : Z.log2 (x + 1) < 53) by (apply Z.log2_lt_pow2; lia).
  destruct (Z.leb_spec (Z.log2 (x + 1) - 52) 0) as [_ | Hgt]; [reflexivity | lia].
Qed.

Lemma F64_add_one_stuck : F64.add F64.limit 1 = F64.limit.
Proof. reflexivity. Qed.

(** The rounding above is the kernel's binary64 addition where the counter
    stops moving. *)
Example F64_agrees_with_binary64 :
  PrimFloat.eqb
    (PrimFloat.add (PrimFloat.of_uint63 9007199254740992%uint63) 1%float)
    (PrimFloat.of_uint63 (Uint63.of_Z (F64.add 9007199254740992 1))) = true
  /\ PrimFloat.eqb
       (PrimFloat.add (PrimFloat.of_uint63 9007199254740991%uint63) 1%float)
       (PrimFloat.of_uint63 (Uint63.of_Z (F64.add 9007199254740991 1))) = true.
Proof. split; vm_compute; reflexivity. Qed.

(** ** Lists of events *)

Lemma proj_snoc_own g tr ev :
  owner ev = g -> proj g (tr ++ [ev]) = proj g tr ++ [ev].
Proof.
  intros H. unfold proj. rewrite filter_app, filter_cons_True by done.
  by rewrite filter_nil.
Qed.

Lemma proj_snoc_other g tr ev :
  owner ev <> g -> proj g (tr ++ [ev]) = proj g tr.
Proof.
  intros H. unfold proj. rewrite filter_app, filter_cons_False by done.
  by rewrite filter_nil, app_nil_r.
Qed.

Lemma proj_app g tr1 tr2 : proj g (tr1 ++ tr2) = proj g tr1 ++ proj g tr2.
Proof. apply filter_app. Qed.

Lemma elem_of_proj g tr ev : ev ∈ proj g tr <-> ev ∈ tr /\ owner ev = g.
Proof. unfold proj. rewrite list_elem_of_filter. tauto. Qed.

(** ** Sums over the started goroutines *)

Lemma wsum_nil w cs : wsum w cs [] = 0%nat.
Proof. by destruct cs. Qed.

Lemma wsum_insert w cs ts i pc pc' c :
  ts !! i = Some pc -> cs !! i = Some c ->
  (wsum w cs (<[i := pc']> ts) + w c pc = wsum w cs ts + w c pc')%nat.
Proof.
  revert ts i. induction cs as [| c1 cs IH]; intros [| t ts] [| i] Ht Hc;
    simplify_eq/=; try lia.
  specialize (IH ts i Ht Hc). lia.
Qed.

Lemma wsum_snoc w cs ts pc c :
  cs !! length ts = Some c ->
  wsum w cs (ts ++ [pc]) = (wsum w cs ts + w c pc)%nat.
Proof.
  revert ts. induction cs as [| c1 cs IH]; intros [| t ts] Hc;
    simplify_eq/=; try lia.
  - destruct cs; simpl; lia.
  - rewrite (IH ts Hc). lia.
Qed.

Lemma wsum_le w cs ts i pc c :
  ts !! i = Some pc -> cs !! i = Some c -> (w c pc <= wsum w cs ts)%nat.
Proof.
  revert ts i. induction cs as [| c1 cs IH]; intros [| t ts] [| i] Ht Hc;
    simplify_eq/=; try lia.
  specialize (IH ts i Ht Hc). lia.
Qed.

Lemma wsum_live_zero cs ts i pc :
  wsum w_live cs ts = 0%nat -> (length ts <= length cs)%nat ->
  ts !! i = Some pc -> pc = TExit.
Proof.
  intros Hz Hlen Ht.
  assert (Hi : (i < length ts)%nat) by (eapply lookup_lt_Some; eauto).
  destruct (lookup_lt_is_Some_2 cs i) as [c Hc]; [lia |].
  pose proof (wsum_le w_live cs ts i pc c Ht Hc) as Hle.
  destruct pc; simpl in Hle; try lia. done.
Qed.

Lemma wsum_sig_exited cs ts :
  length ts = length cs -> (forall i pc, ts !! i = Some pc -> pc = TExit) ->
  Z.of_nat (wsum w_sig cs ts) = failures cs.
Proof.
  revert ts. induction cs as [| c cs IH]; intros [| t ts] Hlen Hall;
    simplify_eq/=; try done.
  rewrite (Hall 0%nat t eq_refl). unfold w_sig at 1. simpl.
  rewrite andb_true_r, Nat2Z.inj_add.
  rewrite (IH ts); [| lia | intros i pc; apply (Hall (S i))].
  by destruct (failing c).
Qed.

Lemma failures_bounds cs : 0 <= failures cs <= Z.of_nat (length cs).
Proof.
  induction cs as [| c cs IH]; simpl; [lia |]. destruct (failing c); lia.
Qed.

Lemma wsum_sig_unsig cs ts :
  Z.of_nat (wsum w_sig cs ts) + Z.of_nat (wsum w_unsig cs ts) <= failures cs.
Proof.
  revert ts. induction cs as [| c cs IH]; intros [| t ts]; simpl; try lia.
  - pose proof (failures_bounds cs). destruct (failing c); lia.
  - specialize (IH ts). unfold w_sig at 1, w_unsig at 1.
    destruct (failing c), (past_signal t); simpl; lia.
Qed.


(** ** What each goroutine has done, by program point *)

Section Scripts.
Variable i : nat.
Variable c : Collector.

Definition s_prod (k : nat) : list Event :=
  EvCollected i <$> take k (collects c).
Definition s_ret : list Event :=
  (EvCollected i <$> collects c) ++ [EvCollectReturned i].
Definition s_err : list Event :=
  s_ret ++ [EvErrorsReturned i (errorsOf c)].
Definition s_sig : list Event := s_err ++ [EvSignal i].
Definition s_up0 : list Event :=
  s_sig ++ [EvSend (Task i) (collectorUpMetric 0 (nameOf c))].
Definition s_log (k : nat) : list Event :=
  s_up0 ++ (EvLog i (nameOf c) <$> take k (errorsOf c)).
Definition s_verdict : list Event :=
  if failing c then s_up0 ++ (EvLog i (nameOf c) <$> errorsOf c)
  else s_err ++ [EvSend (Task i) (collectorUpMetric 1 (nameOf c))].
Definition s_dur (d : Z) : list Event :=
  s_verdict ++ [EvSend (Task i) (durationMetric d (nameOf c))].
Definition s_done (d : Z) : list Event := s_dur d ++ [EvDone i].

(** The events of goroutine [i] when it stands at [pc]; [d] is the elapsed
    time it measured, once it has. *)
Definition task_script (d : Z) (pc : TaskPC) : list Event :=
  match pc with
  | TStart => []
  | TProduce _ k => s_prod k
  | TErrors _ => s_ret
  | TSignal _ _ => s_err
  | TUp0 _ _ => s_sig
  | TLog _ _ k => s_log k
  | TUp1 _ => s_err
  | TDuration _ => s_verdict
  | TDefer => s_dur d
  | TExit => s_done d
  end.

Definition pc_ok (pc : TaskPC) : Prop :=
  match pc with
  | TProduce _ k => (k <= length (collects c))%nat
  | TSignal _ es | TUp0 _ es => es = errorsOf c /\ failing c = true
  | TLog _ es k =>
      es = errorsOf c /\ failing c = true /\ (k <= length es)%nat
  | TUp1 _ => failing c = false
  | _ => True
  end.
End Scripts.

Section Invariant.
Variable e : Exporters.
Variables count0 errCount0 : Z.

Definition spawned (pc : MainPC) : nat :=
  match pc with
  | MIncr | MSendScrapes | MMake => 0%nat
  | MLoop k | MGo k => k
  | _ => length (Collectors e)
  end.

Definition before_make (pc : MainPC) : bool :=
  match pc with MIncr | MSendScrapes | MMake => true | _ => false end.

Definition joined (pc : MainPC) : bool :=
  match pc with
  | MClose | MDrain _ | MCompare _ | MSendUp _ | MReturn => true
  | _ => false
  end.

Definition closed_at (pc : MainPC) : bool :=
  match pc with
  | MDrain _ | MCompare _ | MSendUp _ | MReturn => true
  | _ => false
  end.

Definition ev_scrapes : Event :=
  EvSend Main (scrapesMetric (F64.add count0 1)).
Definition ev_up : Event :=
  EvSend Main (upMetric (liveness (Collectors e))).

Definition m_spawn (k : nat) : list Event :=
  ev_scrapes :: (EvGo <$> seq 0 k).
Definition m_joined : list Event :=
  m_spawn (length (Collectors e)) ++ [EvJoined].
Definition m_closed : list Event := m_joined ++ [EvClosed].
Definition m_drained : list Event :=
  m_closed ++ [EvDrained (failures (Collectors e))].
Definition m_done : list Event := m_drained ++ [ev_up].

Definition main_script (pc : MainPC) : list Event :=
  match pc with
  | MIncr | MSendScrapes => []
  | MMake => [ev_scrapes]
  | MLoop k | MGo k => m_spawn k
  | MWait => m_spawn (length (Collectors e))
  | MClose => m_joined
  | MDrain _ => m_closed
  | MCompare _ | MSendUp _ => m_drained
  | MReturn => m_done
  end.

(** What the main goroutine knows about the tally at each program point:
    [sig] is the number of goroutines that have signalled. *)
Definition tally_ok (pc : MainPC) (pending : list Z) (sig : Z) : Prop :=
  match pc with
  | MDrain k => k + Z.of_nat (length pending) = sig
  | MCompare k => k = sig /\ pending = []
  | MSendUp v => v = liveness (Collectors e)
  | MReturn => True
  | _ => Z.of_nat (length pending) = sig
  end.

Definition task_ok (i : nat) (o : option TaskPC) (h : list Event) : Prop :=
  match o with
  | None => h = []
  | Some pc =>
      exists c, Collectors e !! i = Some c /\ pc_ok c pc
                /\ exists d, h = task_script i c d pc
  end.

Record Inv (s : State) : Prop := {
  inv_nopanic : panicked s = false;
  inv_count :
    frrTotalScrapeCount s =
      match main s with MIncr => count0 | _ => F64.add count0 1 end;
  inv_errcount : frrTotalErrorCount s = errCount0;
  inv_spawned : length (tasks s) = spawned (main s);
  inv_index :
    match main s with
    | MLoop k => (k <= length (Collectors e))%nat
    | MGo k => (k < length (Collectors e))%nat
    | _ => True
    end;
  inv_wg :
    wg s = Z.of_nat (wsum w_live (Collectors e) (tasks s))
           + match main s with MGo _ => 1 | _ => 0 end;
  inv_joined : joined (main s) = true -> wg s = 0;
  inv_bound :
    joined (main s) = true ->
    failures (Collectors e) <= Z.of_nat errCh_capacity;
  inv_chan :
    match errCh s with
    | None => before_make (main s) = true
    | Some ch =>
        before_make (main s) = false
        /\ cap ch = errCh_capacity
        /\ closed ch = closed_at (main s)
        /\ (length (buf ch) <= cap ch)%nat
        /\ tally_ok (main s) (buf ch)
             (Z.of_nat (wsum w_sig (Collectors e) (tasks s)))
    end;
  inv_tasks :
    forall i, task_ok i (tasks s !! i) (proj (Task i) (trace s));
  inv_main : proj Main (trace s) = main_script (main s);
  inv_head :
    match main s with
    | MIncr | MSendScrapes => trace s = []
    | _ => head (trace s) = Some ev_scrapes
    end;
  inv_last : main s = MReturn -> last (trace s) = Some ev_up
}.

Lemma Inv_initial : Inv (initial count0 errCount0).
Proof.
  constructor; simpl; try done.
  by rewrite wsum_nil.
Qed.

(** After the join every started goroutine has exited. *)
Lemma Inv_all_exited s i pc :
  Inv s -> joined (main s) = true -> tasks s !! i = Some pc -> pc = TExit.
Proof.
  intros H Hj Ht. pose proof (inv_wg s H) as Hwg.
  rewrite (inv_joined s H Hj) in Hwg.
  pose proof (inv_spawned s H) as Hlen. pose proof (inv_index s H) as Hidx.
  eapply (wsum_live_zero (Collectors e) (tasks s)); eauto.
  - destruct (main s); simpl in *; try done; lia.
  - destruct (main s); simpl in *; try done; lia.
Qed.

Lemma Inv_joined_length s :
  Inv s -> joined (main s) = true -> length (tasks s) = length (Collectors e).
Proof.
  intros H Hj. rewrite (inv_spawned s H). by destruct (main s).
Qed.

Lemma Inv_joined_sig s :
  Inv s -> joined (main s) = true ->
  Z.of_nat (wsum w_sig (Collectors e) (tasks s)) = failures (Collectors e).
Proof.
  intros H Hj. apply wsum_sig_exited.
  - by apply Inv_joined_length.
  - intros i pc. by apply Inv_all_exited.
Qed.


Lemma Inv_tick s : Inv s -> Inv (tick s).
Proof. intros []. by constructor. Qed.

Lemma send_metric_scrapes v s :
  send_metric Main frrScrapesTotal CounterValue v [] s
  = emit (EvSend Main (scrapesMetric v)) s.
Proof. reflexivity. Qed.

Lemma send_metric_up v s :
  send_metric Main frrUp GaugeValue v [] s = emit (EvSend Main (upMetric v)) s.
Proof. reflexivity. Qed.

Lemma send_metric_collectorUp i v name s :
  send_metric (Task i) frrCollectorUp GaugeValue v [name] s
  = emit (EvSend (Task i) (collectorUpMetric v name)) s.
Proof. reflexivity. Qed.

Lemma send_metric_duration i d name s :
  send_metric (Task i) frrScrapeDuration GaugeValue d [name] s
  = emit (EvSend (Task i) (durationMetric d name)) s.
Proof. reflexivity. Qed.

Lemma task_ok_snoc_other i o tr ev :
  owner ev <> Task i ->
  task_ok i o (proj (Task i) tr) -> task_ok i o (proj (Task i) (tr ++ [ev])).
Proof. intros Hne. by rewrite proj_snoc_other. Qed.

Lemma head_snoc_keep (tr : list Event) ev x :
  head tr = Some x -> head (tr ++ [ev]) = Some x.
Proof. by destruct tr. Qed.

Ltac chan_fin :=
  match goal with
  | Hch : match errCh ?s with _ => _ end |- match errCh ?s with _ => _ end =>
      destruct (errCh s);
      [ destruct Hch as (? & ? & ? & ? & ?); repeat split; simpl in *;
        try done; try lia; try congruence
      | try done ]
  end.

Ltac inv_fin :=
  try done;
  try chan_fin;
  try (intros; apply task_ok_snoc_other; [done | auto]);
  try (apply head_snoc_keep; assumption);
  try lia; try congruence.
Ltac inv_auto := constructor; simpl; inv_fin.

Lemma Inv_step_main s s' : Inv s -> step_main e s = Some s' -> Inv s'.
Proof.
  intros H Hstep.
  pose proof (fun i pc => Inv_all_exited s i pc H) as Hexit.
  pose proof (Inv_joined_sig s H) as Hsig.
  destruct H as [Hnp Hcnt Hec Hsp Hidx Hwg Hj Hbd Hch Hts Hm Hhd Hlast].
  unfold step_main in Hstep.
  destruct (main s) eqn:Hpc; simpl in *.
  - (* MIncr *)
    simplify_eq. inv_auto.
  - (* MSendScrapes *)
    simplify_eq. rewrite send_metric_scrapes. inv_auto.
    + rewrite Hhd, Hcnt. done.
    + rewrite Hhd, Hcnt. done.
  - (* MMake *)
    simplify_eq. apply nil_length_inv in Hsp. 
    constructor; simpl; rewrite ?Hsp, ?wsum_nil; inv_fin.
    by rewrite <- Hsp.
  - (* MLoop *)
    destruct (Collectors e !! k) eqn:Hk; simplify_eq.
    + apply lookup_lt_Some in Hk. inv_auto.
    + apply lookup_ge_None in Hk.
      assert (length (tasks s) = length (Collectors e)) as Heq by lia.
      inv_auto.
  - (* MGo *) simplify_eq.
    destruct (lookup_lt_is_Some_2 (Collectors e) (length (tasks s)) Hidx) as [c Hc].
    inv_auto.
    + rewrite length_app. simpl. lia.
    + rewrite (wsum_snoc _ _ _ _ c Hc). simpl. lia.
    + rewrite (wsum_snoc _ _ _ _ c Hc).
      assert (w_sig c TStart = 0%nat) as ->
        by (unfold w_sig; simpl; by rewrite andb_false_r).
      lia.
    + pose proof (Hts i) as Hi.
      destruct (decide (i < length (tasks s))%nat) as [Hlt | Hge].
      * by rewrite lookup_app_l.
      * rewrite lookup_ge_None_2 in Hi by lia. simpl in Hi.
        destruct (decide (i = length (tasks s))) as [-> | Hne].
        -- rewrite list_lookup_middle by done. simpl.
           exists c. split; [done |]. split; [done |]. by exists 0.
        -- rewrite lookup_ge_None_2; [done |]. rewrite length_app. simpl. lia.
    + rewrite proj_snoc_own by done. rewrite Hm. unfold m_spawn.
      rewrite seq_S, fmap_app. done.
  - (* MWait *)
    destruct (wg s =? 0) eqn:Hz; simplify_eq.
    apply Z.eqb_eq in Hz.
    assert (Hall : forall i pc, tasks s !! i = Some pc -> pc = TExit).
    { intros i pc. apply (wsum_live_zero (Collectors e)); lia. }
    pose proof (wsum_sig_exited (Collectors e) (tasks s) Hsp Hall) as Hfs.
    inv_auto.
    + intros _. destruct (errCh s) as [ch |]; [| done].
      destruct Hch as (_ & Hcap & _ & Hlen & Htal). unfold errCh_capacity in *. lia.
    + rewrite proj_snoc_own by done. by rewrite Hm.
  - (* MClose *)
    destruct (errCh s) as [ch |] eqn:Hech; [| done].
    destruct Hch as (_ & Hcap & Hcl & Hlen & Htal).
    unfold chan_close in Hstep. rewrite Hcl in Hstep. simplify_eq.
    constructor; simpl; rewrite ?Hech; inv_fin.
    rewrite proj_snoc_own by done. by rewrite Hm.
  - (* MDrain *)
    destruct (errCh s) as [ch |] eqn:Hech; [| done].
    destruct Hch as (_ & Hcap & Hcl & Hlen & Htal).
    unfold chan_recv in Hstep. rewrite Hcl in Hstep.
    destruct (buf ch) as [| v rest] eqn:Hbuf; simplify_eq.
    + simpl in Htal.
      constructor; simpl; rewrite ?Hech, ?Hbuf; inv_fin.
      * repeat split; simpl; try done; lia.
      * rewrite proj_snoc_own by done. rewrite Hm. unfold m_drained.
        rewrite <- Hsig by done. do 3 f_equal. lia.
    + simpl in Htal, Hlen.
      constructor; simpl; rewrite ?Hech, ?Hbuf; inv_fin.
  - (* MCompare *)
    simplify_eq.
    constructor; simpl; inv_fin.
    match goal with H : _ /\ buf _ = [] |- _ => destruct H as [-> _] end.
    unfold liveness. by rewrite <- Hsig by done.
  - (* MSendUp *)
    simplify_eq. rewrite send_metric_up.
    assert (Hv : frrState = liveness (Collectors e)).
    { destruct (errCh s) as [ch |]; [| done]. by destruct Hch as (? & ? & ? & ? & ?). }
    constructor; simpl; inv_fin.
    + rewrite proj_snoc_own by done. rewrite Hm, Hv. done.
    + intros _. rewrite last_snoc, Hv. done.
  - (* MReturn *) done.
Qed.

(** One statement of goroutine [i]: the frame it has to respect. *)
Lemma Inv_task_update s s' i pc pc' c evs :
  Inv s ->
  tasks s !! i = Some pc -> Collectors e !! i = Some c -> pc <> TExit ->
  panicked s' = false ->
  frrTotalScrapeCount s' = frrTotalScrapeCount s ->
  frrTotalErrorCount s' = frrTotalErrorCount s ->
  main s' = main s ->
  tasks s' = <[i := pc']> (tasks s) ->
  trace s' = trace s ++ evs ->
  Forall (fun ev => owner ev = Task i) evs ->
  pc_ok c pc' ->
  (forall d, exists d', task_script i c d pc ++ evs = task_script i c d' pc') ->
  wg s' + Z.of_nat (w_live c pc) = wg s + Z.of_nat (w_live c pc') ->
  match errCh s, errCh s' with
  | Some ch, Some ch' =>
      cap ch' = cap ch /\ closed ch' = closed ch
      /\ (length (buf ch') <= cap ch')%nat
      /\ (length (buf ch') + w_sig c pc = length (buf ch) + w_sig c pc')%nat
  | None, None => True
  | _, _ => False
  end ->
  Inv s'.
Proof.
  intros H Hpc Hc Hne Hnp' Hcnt' Hec' Hmain' Hts' Htr' Hown Hok' Hscr Hwg' Hch'.
  assert (Hnj : joined (main s) = false).
  { destruct (joined (main s)) eqn:Hj; [| done].
    by pose proof (Inv_all_exited s i pc H Hj Hpc). }
  destruct H as [Hnp Hcnt Hec Hsp Hidx Hwg Hj Hbd Hch Hts Hm Hhd Hlast].
  pose proof (wsum_insert w_live (Collectors e) (tasks s) i pc pc' c Hpc Hc) as Hlive.
  pose proof (wsum_insert w_sig (Collectors e) (tasks s) i pc pc' c Hpc Hc) as Hsg.
  assert (Hlt : (i < length (tasks s))%nat) by (eapply lookup_lt_Some; eauto).
  constructor; rewrite ?Hcnt', ?Hec', ?Hmain', ?Hts', ?Htr'; try done.
  - by rewrite length_insert.
  - lia.
  - by rewrite Hnj.
  - destruct (errCh s) as [ch |], (errCh s') as [ch' |]; try done.
    destruct Hch as (Hbm & Hcap & Hcl & Hlen & Htal).
    destruct Hch' as (Hcap' & Hcl' & Hlen' & Hbuf').
    repeat split; try congruence.
    destruct (main s); simpl in *; try done; lia.
  - intros j. rewrite proj_app.
    destruct (decide (j = i)) as [-> | Hji].
    + rewrite list_lookup_insert_eq by done. simpl.
      exists c. split; [done |]. split; [done |].
      pose proof (Hts i) as Hi. rewrite Hpc in Hi.
      destruct Hi as (c' & Hc' & _ & d & Hd). simplify_eq.
      destruct (Hscr d) as [d' Hd']. exists d'. rewrite <- Hd', Hd.
      f_equal. unfold proj. clear -Hown.
      induction Hown as [| ev evs Hev _ IH]; [done |].
      by rewrite filter_cons_True, IH.
    + rewrite list_lookup_insert_ne by done.
      assert (proj (Task j) evs = []) as ->; [| by rewrite app_nil_r].
      unfold proj. clear -Hown Hji.
      induction Hown as [| ev evs Hev _ IH]; [done |].
      rewrite filter_cons_False; [done |]. rewrite Hev. congruence.
  - rewrite proj_app, Hm.
    assert (proj Main evs = []) as ->; [| by rewrite app_nil_r].
    unfold proj. clear -Hown.
    induction Hown as [| ev evs Hev _ IH]; [done |].
    rewrite filter_cons_False; [done |]. by rewrite Hev.
  - destruct (main s); simpl in *; try lia; by destruct (trace s).
  - intros Hr. by rewrite Hr in Hnj.
Qed.

Lemma w_sig_eq c pc pc' :
  (failing c = true -> past_signal pc = past_signal pc') ->
  w_sig c pc = w_sig c pc'.
Proof.
  unfold w_sig. destruct (failing c); simpl; [| done]. by intros ->.
Qed.

(** A statement that leaves the tally alone. *)
Lemma Inv_task_quiet s s' i pc pc' c evs :
  Inv s ->
  tasks s !! i = Some pc -> Collectors e !! i = Some c -> pc <> TExit ->
  s' = with_task i pc' (fold_left (fun s ev => emit ev s) evs s) ->
  Forall (fun ev => owner ev = Task i) evs ->
  pc_ok c pc' ->
  (forall d, exists d', task_script i c d pc ++ evs = task_script i c d' pc') ->
  pc' <> TExit ->
  (failing c = true -> past_signal pc = past_signal pc') ->
  Inv s'.
Proof.
  intros H Hpc Hc Hne -> Hown Hok Hscr Hne' Hps.
  assert (Hemit : forall s0,
    let s1 := fold_left (fun s ev => emit ev s) evs s0 in
    panicked s1 = panicked s0 /\ frrTotalScrapeCount s1 = frrTotalScrapeCount s0
    /\ frrTotalErrorCount s1 = frrTotalErrorCount s0 /\ main s1 = main s0
    /\ tasks s1 = tasks s0 /\ trace s1 = trace s0 ++ evs
    /\ wg s1 = wg s0 /\ errCh s1 = errCh s0).
  { clear. induction evs as [| ev evs IH]; intros s0; simpl.
    - by rewrite app_nil_r.
    - destruct (IH (emit ev s0)) as (-> & -> & -> & -> & -> & -> & -> & ->).
      simpl. by rewrite <- app_assoc. }
  destruct (Hemit s) as (Hp & Hcn & Hen & Hmn & Htk & Htr & Hw & He).
  apply (Inv_task_update s _ i pc pc' c evs); simpl; try done.
  - rewrite Hp. by destruct H.
  - by rewrite Htk.
  - rewrite Hw. destruct pc, pc'; simpl; done.
  - rewrite He. pose proof (inv_chan s H) as Hch.
    destruct (errCh s) as [ch |]; [| done].
    destruct Hch as (_ & _ & _ & Hlen & _).
    repeat split; try done. by rewrite (w_sig_eq c pc pc').
Qed.

Lemma Inv_step_task i s s' : Inv s -> step_task e i s = Some s' -> Inv s'.
Proof.
  intros H Hstep.
  unfold step_task in Hstep.
  destruct (tasks s !! i) as [pc |] eqn:Hpc; [| done].
  destruct (Collectors e !! i) as [c |] eqn:Hc; [| done].
  pose proof (inv_tasks s H i) as Hi. rewrite Hpc in Hi. simpl in Hi.
  destruct Hi as (c' & Hc' & Hok & _). simplify_eq.
  assert (Hnj : joined (main s) = false).
  { destruct (joined (main s)) eqn:Hj; [| done].
    pose proof (Inv_all_exited s i pc H Hj Hpc) as ->. done. }
  destruct pc; simpl in *.
  - (* TStart *)
    simplify_eq.
    eapply (Inv_task_quiet s _ i TStart (TProduce (now s) 0) c []); try done; try (by repeat constructor); try (by intros d0; exists d0).
    simpl. lia.
  - (* TProduce *)
    destruct (collects c !! k) as [m |] eqn:Hk; simplify_eq.
    + eapply (Inv_task_quiet s _ i (TProduce startTime k) (TProduce startTime (S k)) c
                [EvCollected i m]); try done; try (by repeat constructor); try (by intros d0; exists d0).
      * simpl. by apply lookup_lt_Some in Hk.
      * intros d. exists d. simpl. unfold s_prod.
        by rewrite (take_S_r _ _ _ Hk), fmap_app.
    + eapply (Inv_task_quiet s _ i (TProduce startTime k) (TErrors startTime) c
                [EvCollectReturned i]); try done; try (by repeat constructor); try (by intros d0; exists d0).
      intros d. exists d. simpl. unfold s_prod, s_ret.
      apply lookup_ge_None in Hk. by rewrite take_ge.
  - (* TErrors *)
    simplify_eq.
    eapply (Inv_task_quiet s _ i (TErrors startTime) _ c
              [EvErrorsReturned i (errorsOf c)]);
      try done; try (by repeat constructor); try (by intros d0; exists d0).
    + unfold failing. by destruct (0 <? length (errorsOf c))%nat eqn:Hf.
    + intros d. exists d. unfold failing.
      by destruct (0 <? length (errorsOf c))%nat.
    + by destruct (0 <? length (errorsOf c))%nat.
    + by destruct (0 <? length (errorsOf c))%nat.
  - (* TSignal *)
    destruct Hok as [-> Hf].
    pose proof (inv_chan s H) as Hch.
    destruct (errCh s) as [ch |] eqn:Hech; [| done].
    destruct Hch as (_ & Hcap & Hcl & Hlen & _).
    assert (closed ch = false) as Hop.
    { rewrite Hcl. by destruct (main s). }
    unfold chan_send in Hstep. rewrite Hop in Hstep.
    destruct (length (buf ch) <? cap ch)%nat eqn:Hroom; simplify_eq.
    apply Nat.ltb_lt in Hroom.
    apply (Inv_task_update s _ i (TSignal startTime (errorsOf c))
             (TUp0 startTime (errorsOf c)) c [EvSignal i]); simpl; try done.
    + by destruct H.
    + by repeat constructor.
    + rewrite Hech. simpl. rewrite length_app. simpl.
      unfold w_sig. rewrite Hf. simpl. repeat split; try done; lia.
  - (* TUp0 *)
    simplify_eq. rewrite send_metric_collectorUp.
    eapply (Inv_task_quiet s _ i (TUp0 startTime errors) (TLog startTime errors 0) c
              [EvSend (Task i) (collectorUpMetric 0 (nameOf c))]); try done; try (by repeat constructor); try (by intros d0; exists d0).
    + simpl. destruct Hok as [-> ?]. repeat split; try done. lia.
    + intros d. exists d. simpl. unfold s_log, s_up0. simpl.
      by rewrite app_nil_r.
  - (* TLog *)
    destruct Hok as (-> & Hf & Hk).
    destruct (errorsOf c !! k) as [err |] eqn:Hek; simplify_eq.
    + eapply (Inv_task_quiet s _ i (TLog startTime (errorsOf c) k)
                (TLog startTime (errorsOf c) (S k)) c [EvLog i (nameOf c) err]);
        try done; try (by repeat constructor); try (by intros d0; exists d0).
      * simpl. apply lookup_lt_Some in Hek. repeat split; try done.
      * intros d. exists d. simpl. unfold s_log.
        by rewrite (take_S_r _ _ _ Hek), fmap_app, app_assoc.
    + eapply (Inv_task_quiet s _ i (TLog startTime (errorsOf c) k)
                (TDuration startTime) c []); try done; try (by repeat constructor); try (by intros d0; exists d0).
      intros d. exists d. simpl. unfold s_log, s_verdict. rewrite Hf.
      apply lookup_ge_None in Hek. by rewrite take_ge, app_nil_r.
  - (* TUp1 *)
    simplify_eq. rewrite send_metric_collectorUp.
    eapply (Inv_task_quiet s _ i (TUp1 startTime) (TDuration startTime) c
              [EvSend (Task i) (collectorUpMetric 1 (nameOf c))]); try done; try (by repeat constructor); try (by intros d0; exists d0).
    + intros d. exists d. simpl. unfold s_verdict. by rewrite Hok.
    + simpl in Hok. congruence.
  - (* TDuration *)
    simplify_eq. rewrite send_metric_duration.
    eapply (Inv_task_quiet s _ i (TDuration startTime) TDefer c
              [EvSend (Task i) (durationMetric (now s - startTime) (nameOf c))]);
      try done; try (by repeat constructor); try (by intros d0; exists d0).
    intros d. by exists (now s - startTime).
  - (* TDefer *)
    pose proof (inv_wg s H) as Hwg.
    pose proof (wsum_le w_live (Collectors e) (tasks s) i TDefer c Hpc Hc) as Hle.
    simpl in Hle.
    destruct (wg s - 1 <? 0) eqn:Hneg.
    { apply Z.ltb_lt in Hneg. destruct (main s); lia. }
    simplify_eq.
    apply (Inv_task_update s _ i TDefer TExit c [EvDone i]); simpl; try done.
    + by destruct H.
    + by repeat constructor.
    + intros d. by exists d.
    + lia.
    + pose proof (inv_chan s H) as Hch.
      destruct (errCh s) as [ch |]; [| done].
      destruct Hch as (_ & _ & _ & Hlen & _). repeat split; try done.
  - done.
Qed.

Lemma Inv_step g s s' : Inv s -> step e g s = Some s' -> Inv s'.
Proof.
  intros H Hstep. unfold step in Hstep.
  rewrite (inv_nopanic s H) in Hstep.
  destruct g as [| i]; simpl in Hstep.
  - destruct (step_main e s) as [s1 |] eqn:H1; simplify_eq/=.
    apply Inv_tick. by apply (Inv_step_main s).
  - destruct (step_task e i s) as [s1 |] eqn:H1; simplify_eq/=.
    apply Inv_tick. by apply (Inv_step_task i s).
Qed.

Lemma Inv_sched_step g s : Inv s -> Inv (sched_step e s g).
Proof.
  intros H. unfold sched_step.
  destruct (step e g s) eqn:Hs; [| done]. by apply (Inv_step g s).
Qed.

Lemma Inv_exec_from sched s : Inv s -> Inv (exec e sched s).
Proof.
  revert s. induction sched as [| g sched IH]; intros s H; [done |].
  simpl. apply IH. by apply Inv_sched_step.
Qed.

(** Every state of a [Collect] call satisfies the invariant. *)
Lemma Inv_exec sched : Inv (exec e sched (initial count0 errCount0)).
Proof. apply Inv_exec_from, Inv_initial. Qed.

End Invariant.

(** ** Progress: [Collect] returns unless the tally fills up *)

Definition task_rem (c : Collector) (pc : TaskPC) : nat :=
  match pc with
  | TStart => length (collects c) + length (errorsOf c) + 8
  | TProduce _ k => (length (collects c) - k) + length (errorsOf c) + 7
  | TErrors _ => length (errorsOf c) + 6
  | TSignal _ es => length es + 5
  | TUp0 _ es => length es + 4
  | TLog _ es k => (length es - k) + 3
  | TUp1 _ => 3
  | TDuration _ => 2
  | TDefer => 1
  | TExit => 0
  end%nat.

Definition main_rem (n : nat) (s : State) : nat :=
  match main s with
  | MIncr => 2 * n + 1033
  | MSendScrapes => 2 * n + 1032
  | MMake => 2 * n + 1031
  | MLoop k => 2 * (n - k) + 1030
  | MGo k => 2 * (n - k) + 1029
  | MWait => 1029
  | MClose => 1028
  | MDrain _ => 3 + match errCh s with Some ch => length (buf ch) | None => 0 end
  | MCompare _ => 2
  | MSendUp _ => 1
  | MReturn => 0
  end%nat.

(** An upper bound on the number of statements still to run. *)
Definition steps_left (e : Exporters) (s : State) : nat :=
  let n := length (Collectors e) in
  (main_rem n s
   + wsum task_rem (Collectors e)
       (tasks s ++ replicate (n - length (tasks s)) TStart))%nat.

Lemma wsum_live_pos cs ts :
  (0 < wsum w_live cs ts)%nat ->
  exists i pc c, ts !! i = Some pc /\ cs !! i = Some c /\ pc <> TExit.
Proof.
  revert ts. induction cs as [| c cs IH]; intros [| t ts] H; simpl in H; try lia.
  destruct (decide (t = TExit)) as [-> | Hne].
  - destruct (IH ts) as (i & pc & c' & ? & ? & ?); [simpl in H; lia |].
    by exists (S i), pc, c'.
  - by exists 0%nat, t, c.
Qed.

Section Progress.
Variable e : Exporters.
Variables count0 errCount0 : Z.
Abbreviation Inv := (Inv e count0 errCount0).

Lemma step_main_shape s s' :
  Inv s -> step_main e s = Some s' -> panicked s' = false ->
  (steps_left e s' < steps_left e s)%nat.
Proof.
  intros H Hstep Hnp'.
  pose proof (inv_spawned _ _ _ _ H) as Hsp.
  pose proof (inv_index _ _ _ _ H) as Hidx.
  pose proof (inv_chan _ _ _ _ H) as Hch.
  unfold step_main in Hstep. unfold steps_left, main_rem.
  destruct (main s) eqn:Hpc; simpl in *.
  - simplify_eq. simpl. lia.
  - simplify_eq. rewrite send_metric_scrapes. simpl. lia.
  - simplify_eq. simpl. lia.
  - destruct (Collectors e !! k) eqn:Hk; simplify_eq; simpl.
    + apply lookup_lt_Some in Hk. lia.
    + lia.
  - simplify_eq. simpl. rewrite length_app. simpl.
    replace (length (Collectors e) - length (tasks s))%nat
      with (S (length (Collectors e) - (length (tasks s) + 1)))%nat by lia.
    rewrite <- app_assoc. simpl. lia.
  - destruct (wg s =? 0); simplify_eq. simpl. lia.
  - destruct (errCh s) as [ch |] eqn:Hech; simplify_eq/=.
    destruct Hch as (_ & Hcap & _ & Hlen & _).
    unfold chan_close in Hstep. destruct (closed ch); simplify_eq/=.
    unfold errCh_capacity in *. lia.
  - destruct (errCh s) as [ch |] eqn:Hech; simplify_eq/=.
    unfold chan_recv in Hstep.
    destruct (buf ch) as [| v rest] eqn:Hbuf.
    + destruct (closed ch); simplify_eq/=. lia.
    + simplify_eq/=. lia.
  - simplify_eq. simpl. lia.
  - simplify_eq. rewrite send_metric_up. simpl. lia.
  - done.
Qed.

Lemma steps_left_task s s' i pc pc' c :
  tasks s !! i = Some pc -> Collectors e !! i = Some c ->
  joined (main s) = false -> main s' = main s ->
  tasks s' = <[i := pc']> (tasks s) ->
  (task_rem c pc' < task_rem c pc)%nat ->
  (steps_left e s' < steps_left e s)%nat.
Proof.
  intros Hpc Hc Hnj Hmain Hts Hlt. unfold steps_left, main_rem.
  rewrite Hmain, Hts, length_insert.
  assert (Hi : (i < length (tasks s))%nat) by (eapply lookup_lt_Some; eauto).
  rewrite <- insert_app_l by done.
  pose proof (wsum_insert task_rem (Collectors e)
    (tasks s ++ replicate (length (Collectors e) - length (tasks s)) TStart)
    i pc pc' c) as Hw.
  rewrite lookup_app_l in Hw by done. specialize (Hw Hpc Hc).
  destruct (main s); simpl in *; try done; lia.
Qed.

Lemma step_task_shape i s s' :
  Inv s -> step_task e i s = Some s' -> panicked s' = false ->
  (steps_left e s' < steps_left e s)%nat.
Proof.
  intros H Hstep Hnp'. unfold step_task in Hstep.
  destruct (tasks s !! i) as [pc |] eqn:Hpc; [| done].
  destruct (Collectors e !! i) as [c |] eqn:Hc; [| done].
  assert (Hnj : joined (main s) = false).
  { destruct (joined (main s)) eqn:Hj; [| done].
    pose proof (Inv_all_exited _ _ _ s i pc H Hj Hpc) as ->. done. }
  destruct pc; simpl in *.
  - simplify_eq.
    eapply (steps_left_task s _ i _ (TProduce (now s) 0) c); eauto.
    simpl. lia.
  - destruct (collects c !! k) as [m |] eqn:Hk; simplify_eq.
    + eapply (steps_left_task s _ i _ (TProduce startTime (S k)) c); eauto.
      apply lookup_lt_Some in Hk. simpl. lia.
    + eapply (steps_left_task s _ i _ (TErrors startTime) c); eauto.
      simpl. lia.
  - simplify_eq.
    eapply (steps_left_task s _ i _ _ c); eauto.
    destruct (0 <? length (errorsOf c))%nat; simpl; lia.
  - destruct (errCh s) as [ch |]; [| done].
    destruct (chan_send 1 ch); simplify_eq/=.
    eapply (steps_left_task s _ i _ (TUp0 startTime errors) c); eauto.
    simpl. lia.
  - simplify_eq. rewrite send_metric_collectorUp.
    eapply (steps_left_task s _ i _ (TLog startTime errors 0) c); eauto.
    simpl. lia.
  - destruct (errors !! k) as [err |] eqn:Hek; simplify_eq.
    + eapply (steps_left_task s _ i _ (TLog startTime errors (S k)) c); eauto.
      apply lookup_lt_Some in Hek. simpl. lia.
    + eapply (steps_left_task s _ i _ (TDuration startTime) c); eauto.
      simpl. lia.
  - simplify_eq. rewrite send_metric_collectorUp.
    eapply (steps_left_task s _ i _ (TDuration startTime) c); eauto.
  - simplify_eq. rewrite send_metric_duration.
    eapply (steps_left_task s _ i _ TDefer c); eauto.
  - destruct (wg s - 1 <? 0); simplify_eq/=.
    eapply (steps_left_task s _ i _ TExit c); eauto.
  - done.
Qed.

Lemma steps_left_tick s : steps_left e (tick s) = steps_left e s.
Proof. done. Qed.

Lemma step_decreases g s s' :
  Inv s -> step e g s = Some s' -> (steps_left e s' < steps_left e s)%nat.
Proof.
  intros H Hstep.
  pose proof (inv_nopanic _ _ _ _ (Inv_step _ _ _ g s s' H Hstep)) as Hnp'.
  unfold step in Hstep. rewrite (inv_nopanic _ _ _ _ H) in Hstep.
  destruct g as [| i]; simpl in Hstep.
  - destruct (step_main e s) as [s1 |] eqn:H1; simplify_eq/=.
    rewrite steps_left_tick. by apply step_main_shape.
  - destruct (step_task e i s) as [s1 |] eqn:H1; simplify_eq/=.
    rewrite steps_left_tick. by apply (step_task_shape i).
Qed.

(** Unless more than 1024 collectors fail, some goroutine can run as long
    as [Collect] has not returned. *)
Lemma progress s :
  Inv s -> failures (Collectors e) <= Z.of_nat errCh_capacity ->
  main s <> MReturn -> exists g s', step e g s = Some s'.
Proof.
  intros H Hfail Hnr.
  pose proof (inv_nopanic _ _ _ _ H) as Hnp.
  pose proof (inv_chan _ _ _ _ H) as Hch.
  pose proof (inv_wg _ _ _ _ H) as Hwg.
  destruct (decide (main s = MWait /\ wg s <> 0)) as [[Hw Hnz] | Hmain].
  - (* only the collectors' goroutines can run *)
    rewrite Hw in Hwg, Hch.
    destruct (wsum_live_pos (Collectors e) (tasks s)) as (i & pc & c & Hpc & Hc & Hne);
      [lia |].
    exists (Task i). unfold step. rewrite Hnp. simpl.
    unfold step_task. rewrite Hpc, Hc.
    pose proof (inv_tasks _ _ _ _ H i) as Hi. rewrite Hpc in Hi.
    destruct Hi as (c' & Hc' & Hok & _). simplify_eq.
    destruct pc; simpl; try (eexists; reflexivity); try done.
    + destruct (collects c !! k); eexists; reflexivity.
    + destruct (errCh s) as [ch |]; [| done]. simpl in Hch.
      destruct Hch as (_ & Hcap & Hcl & Hlen & Htal).
      destruct Hok as [_ Hf].
      pose proof (wsum_le w_unsig (Collectors e) (tasks s) i _ c Hpc Hc) as Hun.
      unfold w_unsig in Hun at 1. rewrite Hf in Hun. simpl in Hun.
      pose proof (wsum_sig_unsig (Collectors e) (tasks s)) as Hsum.
      unfold chan_send. rewrite Hcl.
      assert ((length (buf ch) <? cap ch)%nat = true) as ->.
      { apply Nat.ltb_lt. rewrite Hcap in *. unfold errCh_capacity in *. lia. }
      eexists; reflexivity.
    + destruct (errors !! k); eexists; reflexivity.
    + destruct (wg s - 1 <? 0); eexists; reflexivity.
  - exists Main. unfold step. rewrite Hnp. simpl. unfold step_main.
    destruct (main s) eqn:Hpc; try (eexists; reflexivity); try done.
    + destruct (Collectors e !! k); eexists; reflexivity.
    + destruct (wg s =? 0) eqn:Hz; [eexists; reflexivity |].
      apply Z.eqb_neq in Hz. tauto.
    + destruct (errCh s) as [ch |]; [| eexists; reflexivity].
      destruct (chan_close ch); eexists; reflexivity.
    + destruct (errCh s) as [ch |]; [| done].
      destruct Hch as (_ & _ & Hcl & _). unfold chan_recv. rewrite Hcl.
      destruct (buf ch); eexists; reflexivity.
Qed.

(** From any state of a call in which at most 1024 collectors fail, the
    scheduler can take [Collect] to its return. *)
Lemma can_return_from s :
  Inv s -> failures (Collectors e) <= Z.of_nat errCh_capacity ->
  exists sched, returned (exec e sched s).
Proof.
  intros H Hfail.
  remember (steps_left e s) as n eqn:Hn.
  revert s H Hn. induction n as [n IH] using lt_wf_ind. intros s H ->.
  destruct (decide (main s = MReturn)) as [Hr | Hnr].
  - by exists [].
  - destruct (progress s H Hfail Hnr) as (g & s' & Hstep).
    destruct (IH (steps_left e s') (step_decreases g s s' H Hstep) s')
      as [sched Hsched]; [by apply (Inv_step _ _ _ g s) | done |].
    exists (g :: sched). simpl. unfold sched_step. by rewrite Hstep.
Qed.

End Progress.

(** ** One call, and a process making calls one after the other *)

(** The state of a [Collect] call on [e], entered with the package variables
    at [count] and [errCount], after the scheduler's picks [sched]. *)
Definition Collect (e : Exporters) (sched : list Gid) (count errCount : Z) : State :=
  exec e sched (initial count errCount).

(** The package variables after the calls [calls], each run to its return;
    [None] when one of them has not returned. *)
Fixpoint process (calls : list (Exporters * list Gid)) (count errCount : Z)
    : option (Z * Z) :=
  match calls with
  | [] => Some (count, errCount)
  | (e, sched) :: rest =>
      let s := Collect e sched count errCount in
      match main s with
      | MReturn => process rest (frrTotalScrapeCount s) (frrTotalErrorCount s)
      | _ => None
      end
  end.

(** The collectors whose [CollectErrors()] returned a non-empty sequence. *)
Definition erring (cs : list Collector) : list Collector :=
  filter (fun c => errorsOf c <> []) cs.

(** 1 for an empty error sequence, 0 for any other. *)
Definition up_value (c : Collector) : Z :=
  match errorsOf c with [] => 1 | _ :: _ => 0 end.

(** The metrics with descriptor [d] that the orchestrator's code running in
    goroutine [g] has sent. *)
Definition sent_by (g : Gid) (d : Desc) (ev : Event) : option Metric :=
  match ev with
  | EvSend g' m => if decide (g' = g /\ desc m = d) then Some m else None
  | _ => None
  end.
Definition sends_of (g : Gid) (d : Desc) (tr : list Event) : list Metric :=
  omap (sent_by g d) tr.

Lemma failing_iff c : failing c = true <-> errorsOf c <> [].
Proof.
  unfold failing. destruct (errorsOf c); simpl; split; try done.
Qed.

Lemma failures_erring cs : failures cs = Z.of_nat (length (erring cs)).
Proof.
  unfold erring. induction cs as [| c cs IH]; [done |]. simpl.
  destruct (failing c) eqn:Hf.
  - rewrite filter_cons_True by (by apply failing_iff). simpl. lia.
  - rewrite filter_cons_False; [lia |]. rewrite <- failing_iff. congruence.
Qed.

Lemma up_value_failing c : up_value c = if failing c then 0 else 1.
Proof. unfold up_value, failing. by destruct (errorsOf c). Qed.

Lemma exec_app e sched1 sched2 s :
  exec e (sched1 ++ sched2) s = exec e sched2 (exec e sched1 s).
Proof. apply fold_left_app. Qed.

Lemma Collect_Inv e sched count errCount :
  Inv e count errCount (Collect e sched count errCount).
Proof. apply Inv_exec. Qed.

(** Unless more than 1024 collectors fail, a call can always be scheduled
    to its return, whatever has been scheduled so far. *)
Lemma Collect_can_return e sched count errCount :
  failures (Collectors e) <= Z.of_nat errCh_capacity ->
  exists sched', returned (Collect e (sched ++ sched') count errCount).
Proof.
  intros Hf.
  destruct (can_return_from e count errCount (Collect e sched count errCount))
    as [sched' Hr]; [apply Collect_Inv | done |].
  exists sched'. unfold Collect. by rewrite exec_app.
Qed.

Lemma returned_joined s : returned s -> joined (main s) = true.
Proof. unfold returned. by intros ->. Qed.

(** Once returned, nothing of the call runs any more. *)
Lemma returned_final e count errCount s g :
  Inv e count errCount s -> returned s -> step e g s = None.
Proof.
  intros H Hr. unfold step. rewrite (inv_nopanic _ _ _ _ H).
  destruct g as [| i]; simpl.
  - unfold step_main. by rewrite Hr.
  - unfold step_task.
    destruct (tasks s !! i) as [pc |] eqn:Hpc; [| done].
    rewrite (Inv_all_exited _ _ _ s i pc H); [| by rewrite Hr | done].
    by destruct (Collectors e !! i).
Qed.

(** ** Histories of the goroutines *)

(** What follows the collector's own metrics in [s_done]. *)
Definition s_tail (i : nat) (c : Collector) (d : Z) : list Event :=
  [EvCollectReturned i; EvErrorsReturned i (errorsOf c)]
  ++ (if failing c
      then [EvSignal i; EvSend (Task i) (collectorUpMetric 0 (nameOf c))]
           ++ (EvLog i (nameOf c) <$> errorsOf c)
      else [EvSend (Task i) (collectorUpMetric 1 (nameOf c))])
  ++ [EvSend (Task i) (durationMetric d (nameOf c)); EvDone i].

Lemma s_done_tail i c d :
  s_done i c d = (EvCollected i <$> collects c) ++ s_tail i c d.
Proof.
  unfold s_done, s_dur, s_verdict, s_up0, s_sig, s_err, s_ret, s_tail.
  destruct (failing c); by rewrite <- ?app_assoc.
Qed.

Section Histories.
Variable e : Exporters.
Variables count errCount : Z.
Variable sched : list Gid.
Let s := Collect e sched count errCount.

(** What goroutine [i] has done so far is an initial part of the one
    sequence [s_done]; it is all of it once [wg.Wait()] has returned. *)
Lemma task_history i c :
  Collectors e !! i = Some c ->
  exists d rest,
    proj (Task i) (trace s) ++ rest = s_done i c d
    /\ (joined (main s) = true -> rest = []).
Proof.
  intros Hc.
  pose proof (Collect_Inv e sched count errCount) as H. fold s in H.
  pose proof (inv_tasks _ _ _ _ H i) as Hi.
  destruct (tasks s !! i) as [pc |] eqn:Hpc; simpl in Hi.
  - destruct Hi as (c' & Hc' & Hok & d & ->). simplify_eq.
    assert (Hret : joined (main s) = true -> pc = TExit).
    { intros Hr. by apply (Inv_all_exited _ _ _ s i pc H). }
    destruct pc; simpl in *.
    + exists 0, (s_done i c 0). split; [done |]. intros Hr. by apply Hret in Hr.
    + exists 0, ((EvCollected i <$> drop k (collects c)) ++ s_tail i c 0).
      split; [| intros Hr; by apply Hret in Hr].
      rewrite s_done_tail, app_assoc. unfold s_prod.
      by rewrite <- fmap_app, take_drop.
    + destruct (failing c) eqn:Hf; exists 0; eexists;
        (split; [unfold s_done, s_dur, s_verdict, s_up0, s_sig, s_err;
                 rewrite Hf, <- !app_assoc; reflexivity
                | intros Hr; apply Hret in Hr; discriminate Hr]).
    + destruct Hok as [_ Hf]. exists 0. eexists.
      split; [| intros Hr; apply Hret in Hr; discriminate Hr].
      unfold s_done, s_dur, s_verdict, s_up0, s_sig. rewrite Hf.
      rewrite <- !app_assoc; reflexivity.
    + destruct Hok as [_ Hf]. exists 0. eexists.
      split; [| intros Hr; apply Hret in Hr; discriminate Hr].
      unfold s_done, s_dur, s_verdict, s_up0. rewrite Hf.
      rewrite <- !app_assoc; reflexivity.
    + destruct Hok as (-> & Hf & _).
      exists 0, ((EvLog i (nameOf c) <$> drop k (errorsOf c))
                 ++ [EvSend (Task i) (durationMetric 0 (nameOf c)); EvDone i]).
      split; [| intros Hr; apply Hret in Hr; discriminate Hr].
      unfold s_done, s_dur, s_verdict, s_log. rewrite Hf.
      rewrite <- !app_assoc. f_equal. rewrite app_assoc, <- fmap_app, take_drop.
      done.
    + exists 0. eexists. split; [| intros Hr; apply Hret in Hr; discriminate Hr].
      unfold s_done, s_dur, s_verdict. rewrite Hok.
      rewrite <- !app_assoc; reflexivity.
    + exists 0. eexists. split; [| intros Hr; apply Hret in Hr; discriminate Hr].
      unfold s_done, s_dur. rewrite <- !app_assoc; reflexivity.
    + exists d. eexists. split; [| intros Hr; apply Hret in Hr; discriminate Hr].
      unfold s_done. reflexivity.
    + exists d, []. by rewrite app_nil_r.
  - exists 0, (s_done i c 0). rewrite Hi. split; [done |].
    intros Hr. apply lookup_ge_None in Hpc.
    rewrite (Inv_joined_length _ _ _ s H) in Hpc by done.
    apply lookup_lt_Some in Hc. lia.
Qed.

End Histories.

(** ** What has been sent, by descriptor *)

Lemma sends_of_app g d tr1 tr2 :
  sends_of g d (tr1 ++ tr2) = sends_of g d tr1 ++ sends_of g d tr2.
Proof. apply omap_app. Qed.

Lemma sends_of_proj g d tr : sends_of g d (proj g tr) = sends_of g d tr.
Proof.
  unfold sends_of, proj. induction tr as [| ev tr IH]; [done |].
  destruct (decide (owner ev = g)) as [Hg | Hg].
  - rewrite filter_cons_True by done. simpl.
    destruct (sent_by g d ev); [f_equal |]; apply IH.
  - rewrite filter_cons_False by done. rewrite IH.
    destruct ev; simpl in *; try done.
    rewrite decide_False; [done |]. by intros [? _].
Qed.

Lemma sends_of_collected g d i (ms : list Metric) :
  sends_of g d (EvCollected i <$> ms) = [].
Proof. unfold sends_of. by induction ms. Qed.

Lemma sends_of_log g d i name (es : list error) :
  sends_of g d (EvLog i name <$> es) = [].
Proof. unfold sends_of. by induction es. Qed.

Lemma collectorUp_not_duration : frrCollectorUp <> frrScrapeDuration.
Proof. done. Qed.

Lemma sends_of_s_done_up i c d :
  sends_of (Task i) frrCollectorUp (s_done i c d)
  = [collectorUpMetric (up_value c) (nameOf c)].
Proof.
  rewrite s_done_tail, sends_of_app, sends_of_collected, up_value_failing.
  unfold s_tail. destruct (failing c); rewrite !sends_of_app, ?sends_of_log;
    unfold sends_of; simpl; repeat case_decide; try done;
    exfalso; naive_solver.
Qed.

Lemma sends_of_s_done_duration i c d :
  sends_of (Task i) frrScrapeDuration (s_done i c d)
  = [durationMetric d (nameOf c)].
Proof.
  rewrite s_done_tail, sends_of_app, sends_of_collected.
  unfold s_tail. destruct (failing c); rewrite !sends_of_app, ?sends_of_log;
    unfold sends_of; simpl; repeat case_decide; try done;
    exfalso; naive_solver.
Qed.

Lemma send_in_s_done g m i c d :
  EvSend g m ∈ s_done i c d ->
  g = Task i
  /\ (m = collectorUpMetric (up_value c) (nameOf c)
      \/ m = durationMetric d (nameOf c)).
Proof.
  rewrite s_done_tail, up_value_failing. unfold s_tail.
  rewrite !elem_of_app, !list_elem_of_fmap.
  destruct (failing c);
    rewrite ?elem_of_app, ?list_elem_of_fmap, ?elem_of_cons, ?elem_of_nil;
    naive_solver.
Qed.

(** Every event of goroutine [i] in the history is one of [s_done]. *)
Lemma task_event_in_s_done e sched count errCount i c ev :
  Collectors e !! i = Some c ->
  ev ∈ trace (Collect e sched count errCount) -> owner ev = Task i ->
  exists d, ev ∈ s_done i c d.
Proof.
  intros Hc Hin Hown.
  destruct (task_history e count errCount sched i c Hc) as (d & rest & Heq & _).
  exists d. rewrite <- Heq, elem_of_app. left. by apply elem_of_proj.
Qed.

(** C2: in a call on any collectors, under any scheduling, every
    [frr_collector_up] sample that the goroutine of collector [c] sends is the
    one with value 1 when [CollectErrors()] returned the empty sequence and
    value 0 when it returned a non-empty one, however long; and once the call
    has returned that sample has been sent. *)
Theorem C2_collector_up_value e sched count errCount i c :
  Collectors e !! i = Some c ->
  let s := Collect e sched count errCount in
  (forall m, EvSend (Task i) m ∈ trace s -> desc m = frrCollectorUp ->
     m = collectorUpMetric (up_value c) (nameOf c))
  /\ (returned s ->
      EvSend (Task i) (collectorUpMetric (up_value c) (nameOf c)) ∈ trace s)
  /\ (errorsOf c = [] -> up_value c = 1)
  /\ (errorsOf c <> [] -> up_value c = 0).
Proof.
  intros Hc s. repeat split.
  - intros m Hin Hd.
    destruct (task_event_in_s_done e sched count errCount i c _ Hc Hin eq_refl)
      as [d Hm].
    apply send_in_s_done in Hm as [_ [-> | ->]]; [done |].
    by destruct collectorUp_not_duration.
  - intros Hr.
    destruct (task_history e count errCount sched i c Hc) as (d & rest & Heq & Hrest).
    rewrite (Hrest (returned_joined _ Hr)), app_nil_r in Heq.
    assert (Hin : EvSend (Task i) (collectorUpMetric (up_value c) (nameOf c))
                  ∈ proj (Task i) (trace s)).
    { unfold s. rewrite Heq, s_done_tail, up_value_failing. unfold s_tail.
      destruct (failing c); rewrite !elem_of_app, ?elem_of_cons; naive_solver. }
    by apply elem_of_proj in Hin as [? _].
  - unfold up_value. by intros ->.
  - unfold up_value. by destruct (errorsOf c).
Qed.

Lemma C2_collector_up_value_witness :
  let s := Collect Scenario.abc (Scenario.round_robin 30) 0 0 in
  (forall m, EvSend (Task 1) m ∈ trace s -> desc m = frrCollectorUp ->
     m = collectorUpMetric 0 "B")
  /\ EvSend (Task 1) (collectorUpMetric 0 "B") ∈ trace s.
Proof.
  destruct (C2_collector_up_value Scenario.abc (Scenario.round_robin 30) 0 0
              1%nat Scenario.B eq_refl) as (Hval & Hsent & _).
  split; [exact Hval | apply Hsent; reflexivity].
Defined.

(** ** The main goroutine's history *)

Lemma main_history e sched count errCount :
  proj Main (trace (Collect e sched count errCount))
  = main_script e count (main (Collect e sched count errCount)).
Proof. apply (inv_main _ _ _ _ (Collect_Inv e sched count errCount)). Qed.

Lemma send_in_main_script e count pc g m :
  EvSend g m ∈ main_script e count pc ->
  g = Main
  /\ (m = scrapesMetric (F64.add count 1)
      \/ (m = upMetric (liveness (Collectors e)) /\ pc = MReturn)).
Proof.
  destruct pc; simpl;
    unfold m_done, m_drained, m_closed, m_joined, m_spawn, ev_scrapes, ev_up;
    rewrite ?elem_of_app, ?elem_of_cons, ?list_elem_of_fmap, ?elem_of_nil;
    naive_solver.
Qed.

Lemma sends_of_go g d (l : list nat) : sends_of g d (EvGo <$> l) = [].
Proof. unfold sends_of. by induction l. Qed.

Lemma scrapes_not_up : frrScrapesTotal <> frrUp.
Proof. done. Qed.






Lemma last_elem_of {A} (l : list A) x : last l = Some x -> x ∈ l.
Proof.
  induction l as [| y l IH]; [done |]. destruct l as [| z l].
  - intros [= ->]. by left.
  - intros H. right. by apply IH.
Qed.


(** An element that does not occur in [p] splits [p ++ t] inside [t]. *)
Lemma app_split_notin {A} (p t a b : list A) x :
  x ∉ p -> p ++ t = a ++ x :: b -> exists a', a = p ++ a' /\ t = a' ++ x :: b.
Proof.
  revert a. induction p as [| y p IH]; intros a Hnot Heq.
  - by exists a.
  - destruct a as [| z a]; simplify_eq/=.
    + exfalso. apply Hnot. by left.
    + destruct (IH a) as (a' & -> & ->); [| done |].
      * intros Hin. apply Hnot. by right.
      * by exists a'.
Qed.

(** C9: in a call on any collectors, under any scheduling, whenever the
    goroutine of collector [c] sends a sample of its own (an up or a duration
    sample), the collector's [Collect] and its [CollectErrors()] have both
    returned before; an up sample of 0 is preceded by that goroutine's signal
    on the tally; and no metric of the collector itself reaches the sink
    after it. *)
Theorem C9_samples_after_production e sched count errCount i c l1 m l2 :
  Collectors e !! i = Some c ->
  trace (Collect e sched count errCount) = l1 ++ EvSend (Task i) m :: l2 ->
  (desc m = frrCollectorUp \/ desc m = frrScrapeDuration)
  /\ EvCollectReturned i ∈ l1
  /\ EvErrorsReturned i (errorsOf c) ∈ l1
  /\ (desc m = frrCollectorUp -> value m = 0 -> EvSignal i ∈ l1)
  /\ (forall m', EvCollected i m' ∉ l2).
Proof.
  intros Hc Htr.
  destruct (task_history e count errCount sched i c Hc) as (d & rest & Heq & _).
  rewrite Htr, proj_app in Heq.
  change (EvSend (Task i) m :: l2) with ([EvSend (Task i) m] ++ l2) in Heq.
  rewrite proj_app in Heq.
  assert (proj (Task i) [EvSend (Task i) m] = [EvSend (Task i) m]) as Hown.
  { unfold proj. by rewrite filter_cons_True. }
  rewrite Hown, s_done_tail in Heq. rewrite <- !app_assoc in Heq. simpl in Heq.
  symmetry in Heq.
  apply (app_split_notin (EvCollected i <$> collects c)) in Heq
    as (a1 & Ha1 & Htail);
    [| rewrite list_elem_of_fmap; by intros (? & ? & ?)].
  unfold s_tail in Htail. simpl in Htail.
  destruct a1 as [| x1 a1]; [by simplify_eq/= |].
  destruct a1 as [| x2 a2]; [by simplify_eq/= |].
  injection Htail as -> -> Htail.
  assert (Hl1 : forall ev, ev ∈ proj (Task i) l1 -> ev ∈ l1).
  { intros ev Hev. by apply elem_of_proj in Hev as [? _]. }
  assert (Hsub : forall ev, ev ∈ a2 -> ev ∈ l1).
  { intros ev Hev. apply Hl1. rewrite Ha1, elem_of_app. right. by do 2 right. }
  assert (Hm : desc m = frrCollectorUp \/ desc m = frrScrapeDuration).
  { assert (Hin : EvSend (Task i) m ∈ s_done i c d).
    { rewrite s_done_tail. unfold s_tail. simpl. rewrite elem_of_app. right.
      do 2 right. rewrite Htail, elem_of_app. right. by left. }
    apply send_in_s_done in Hin as [_ [-> | ->]]; [by left | by right]. }
  split; [done |]. split; [| split; [| split]].
  - apply Hl1. rewrite Ha1, elem_of_app. right. by left.
  - apply Hl1. rewrite Ha1, elem_of_app. right. right. by left.
  - intros Hd Hv. destruct (failing c) eqn:Hf.
    + simpl in Htail. destruct a2 as [| x3 a3]; [by simplify_eq/= |].
      injection Htail as -> _. apply Hsub. by left.
    + simpl in Htail. exfalso.
      destruct a2 as [| x3 a3]; simplify_eq/=.
      destruct a3 as [| x4 a4]; simplify_eq/=.
      destruct a4 as [| x5 a5]; simplify_eq/=. by destruct a5.
  - intros m' Hin.
    assert (Hin' : EvCollected i m' ∈ proj (Task i) l2 ++ rest).
    { rewrite elem_of_app. left. by apply elem_of_proj. }
    assert (Hin'' : EvCollected i m'
                    ∈ a2 ++ EvSend (Task i) m :: proj (Task i) l2 ++ rest).
    { rewrite elem_of_app. right. by right. }
    rewrite <- Htail in Hin''. clear -Hin''. revert Hin''.
    destruct (failing c); simpl;
      repeat (rewrite elem_of_app || rewrite elem_of_cons
              || rewrite list_elem_of_fmap || rewrite elem_of_nil);
      naive_solver.
Qed.

Lemma C9_samples_after_production_witness :
  let tr := trace (Collect Scenario.abc (Scenario.round_robin 30) 0 0) in
  EvCollectReturned 1 ∈ take 23 tr
  /\ EvErrorsReturned 1 ["e1"; "e2"] ∈ take 23 tr
  /\ EvSignal 1 ∈ take 23 tr.
Proof.
  intros tr.
  assert (Hsplit : tr = take 23 tr
                        ++ EvSend (Task 1) (collectorUpMetric 0 "B")
                        :: drop 24 tr) by (vm_compute; reflexivity).
  destruct (C9_samples_after_production Scenario.abc (Scenario.round_robin 30)
              0 0 1%nat Scenario.B (take 23 tr) (collectorUpMetric 0 "B")
              (drop 24 tr) eq_refl Hsplit) as (_ & Hret & Herr & Hsig & _).
  split; [exact Hret | split; [exact Herr | apply Hsig; reflexivity]].
Defined.

(** ** The drain *)


Lemma processErrors_from_closed pending errors :
  processErrors_from pending true errors
  = Some (errors + Z.of_nat (length pending)).
Proof.
  revert errors. induction pending as [| v rest IH]; intros errors; simpl.
  - f_equal. lia.
  - rewrite IH. f_equal. lia.
Qed.






(** ** The capacity of the tally *)

(** With at most 1024 failing collectors a goroutine that is about to signal
    finds room in the tally. *)
Lemma signal_goes_through e sched count errCount i startTime errors :
  failures (Collectors e) <= Z.of_nat errCh_capacity ->
  tasks (Collect e sched count errCount) !! i = Some (TSignal startTime errors) ->
  step e (Task i) (Collect e sched count errCount) <> None.
Proof.
  intros Hfail Hpc.
  pose proof (Collect_Inv e sched count errCount) as H.
  set (s := Collect e sched count errCount) in *.
  assert (Hnj : joined (main s) = false).
  { destruct (joined (main s)) eqn:Hj; [| done].
    by pose proof (Inv_all_exited _ _ _ s i _ H Hj Hpc). }
  pose proof (inv_tasks _ _ _ _ H i) as Hi. rewrite Hpc in Hi.
  destruct Hi as (c & Hc & [_ Hf] & _).
  pose proof (inv_chan _ _ _ _ H) as Hch.
  pose proof (inv_spawned _ _ _ _ H) as Hsp.
  apply lookup_lt_Some in Hpc as Hlt.
  unfold step. rewrite (inv_nopanic _ _ _ _ H). simpl.
  unfold step_task. rewrite Hpc, Hc.
  destruct (errCh s) as [ch |].
  - destruct Hch as (_ & Hcap & Hcl & Hlen & Htal).
    pose proof (wsum_le w_unsig (Collectors e) (tasks s) i _ c Hpc Hc) as Hun.
    unfold w_unsig in Hun at 1. rewrite Hf in Hun. simpl in Hun.
    pose proof (wsum_sig_unsig (Collectors e) (tasks s)) as Hsum.
    unfold chan_send.
    assert (closed ch = false) as -> by (rewrite Hcl; by destruct (main s)).
    assert ((length (buf ch) <? cap ch)%nat = true) as ->; [| done].
    apply Nat.ltb_lt. rewrite Hcap. unfold errCh_capacity in *.
    destruct (main s); simpl in *; try done; lia.
  - destruct (main s); simpl in *; try done; lia.
Qed.

(** With more than 1024 failing collectors [wg.Wait()] never returns. *)
Lemma never_returns_beyond_capacity e sched count errCount :
  Z.of_nat errCh_capacity < failures (Collectors e) ->
  ~ returned (Collect e sched count errCount).
Proof.
  intros Hf Hr.
  pose proof (inv_bound _ _ _ _ (Collect_Inv e sched count errCount)
                (returned_joined _ Hr)). lia.
Qed.

Module TooMany.
Definition failing_collector : Collector :=
  Scenario.mk "bgp" [] ["cannot connect to the daemon"].
(** 1025 registered collectors, all failing. *)
Definition exporters : Exporters :=
  NewExporter (replicate 1025 failing_collector).
(** The main goroutine first, up to its [wg.Wait()]; then the collectors'
    goroutines in turn, as far as each can go. *)
Definition sched : list Gid :=
  replicate 2054 Main ++ concat (replicate 9 (Task <$> seq 0 1025)).
End TooMany.

Definition blocked_at_signal (e : Exporters) (i : nat) (s : State) : bool :=
  match tasks s !! i with
  | Some (TSignal _ _) =>
      match step e (Task i) s with None => true | Some _ => false end
  | _ => false
  end.

Definition tally_full (s : State) : bool :=
  match errCh s with
  | Some ch => Nat.eqb (length (buf ch)) (cap ch)
  | None => false
  end.

Definition main_waits (e : Exporters) (s : State) : bool :=
  match main s with
  | MWait => match step e Main s with None => true | Some _ => false end
  | _ => false
  end.

Definition others_exited (i : nat) (s : State) : bool :=
  forallb (fun pc => bool_decide (pc = TExit)) (take i (tasks s) ++ drop (S i) (tasks s)).

Lemma TooMany_more_than_capacity :
  (errCh_capacity < length (Collectors TooMany.exporters))%nat.
Proof. vm_compute. lia. Qed.

Lemma TooMany_run :
  (let s := Collect TooMany.exporters TooMany.sched 0 0 in
   tally_full s && blocked_at_signal TooMany.exporters 1024 s
   && others_exited 1024 s && main_waits TooMany.exporters s) = true.
Proof. vm_compute. reflexivity. Qed.

Lemma TooMany_deadlock :
  let s := Collect TooMany.exporters TooMany.sched 0 0 in
  tally_full s = true
  /\ blocked_at_signal TooMany.exporters 1024 s = true
  /\ others_exited 1024 s = true
  /\ main_waits TooMany.exporters s = true.
Proof.
  pose proof TooMany_run as Hall. cbv zeta in Hall |- *.
  apply andb_true_iff in Hall as [Hall Hwaits].
  apply andb_true_iff in Hall as [Hall Hexited].
  apply andb_true_iff in Hall as [Hfull Hblocked].
  split; [exact Hfull | split; [exact Hblocked | split; [exact Hexited | exact Hwaits]]].
Qed.

Lemma TooMany_never_returns sched count errCount :
  ~ returned (Collect TooMany.exporters sched count errCount).
Proof. apply never_returns_beyond_capacity. vm_compute. reflexivity. Qed.

(** C5 fails on the code: the capacity of [errCh] is the constant 1024,
    whatever the number of registered collectors.  With 1025 failing
    collectors the capacity is below the number of collectors; there is a
    scheduling after which the tally is full, the goroutine of the last
    collector is blocked on [errCh <- 1], every other collector's goroutine
    has exited and [Collect] is blocked in [wg.Wait()]; and under no
    scheduling does that call return. *)
Theorem C5_fixed_capacity_blocks_a_signal :
  (errCh_capacity < length (Collectors TooMany.exporters))%nat
  /\ (let s := Collect TooMany.exporters TooMany.sched 0 0 in
      tally_full s = true
      /\ blocked_at_signal TooMany.exporters 1024 s = true
      /\ others_exited 1024 s = true
      /\ main_waits TooMany.exporters s = true)
  /\ (forall sched count errCount,
        ~ returned (Collect TooMany.exporters sched count errCount)).
Proof.
  split; [exact TooMany_more_than_capacity |].
  split; [exact TooMany_deadlock | exact TooMany_never_returns].
Qed.

(** ** Goroutines that never get past the tally *)

(** When fewer goroutines have signalled than collectors fail, some failing
    collector's goroutine has not got past [errCh <- 1]. *)
Lemma wsum_sig_short cs : forall ts,
  Z.of_nat (wsum w_sig cs ts) < failures cs ->
  exists i c, cs !! i = Some c /\ failing c = true
    /\ match ts !! i with
       | Some pc => past_signal pc = false
       | None => True
       end.
Proof.
  induction cs as [| c cs IH]; intros ts Hlt; simpl in Hlt.
  - destruct ts; simpl in Hlt; lia.
  - destruct ts as [| pc ts].
    + destruct (failing c) eqn:Hf.
      * by exists 0%nat, c.
      * destruct (IH []) as (i & c' & Hc' & Hf' & _).
        { rewrite wsum_nil. simpl in Hlt. lia. }
        exists (S i), c'. by rewrite lookup_nil.
    + simpl in Hlt. unfold w_sig at 1 in Hlt.
      destruct (failing c) eqn:Hf, (past_signal pc) eqn:Hp; simpl in Hlt;
        try (by exists 0%nat, c);
        (destruct (IH ts) as (i & c' & Hc' & Hf' & Hpc); [lia |];
         by exists (S i), c').
Qed.

(** A goroutine that has not got past [errCh <- 1] has sent neither of its
    own samples. *)
Lemma before_signal_silent e sched count errCount i c :
  Collectors e !! i = Some c -> failing c = true ->
  match tasks (Collect e sched count errCount) !! i with
  | Some pc => past_signal pc = false
  | None => True
  end ->
  forall d, sends_of (Task i) d (trace (Collect e sched count errCount)) = [].
Proof.
  intros Hc Hf Hpc d.
  pose proof (inv_tasks _ _ _ _ (Collect_Inv e sched count errCount) i) as Hi.
  rewrite <- sends_of_proj.
  destruct (tasks (Collect e sched count errCount) !! i) as [pc |];
    simpl in Hi; [| by rewrite Hi].
  destruct Hi as (c' & Hc' & Hok & d' & ->). simplify_eq.
  destruct pc; simpl in *; try done.
  - unfold s_prod. apply sends_of_collected.
  - unfold s_ret. by rewrite sends_of_app, sends_of_collected.
  - unfold s_err, s_ret. by rewrite !sends_of_app, sends_of_collected.
  - congruence.
Qed.

(** With more than 1024 failing collectors, at every moment of every
    scheduling some registered collector has neither sample in the sink. *)
Lemma silent_beyond_capacity e sched count errCount :
  Z.of_nat errCh_capacity < failures (Collectors e) ->
  exists i c, Collectors e !! i = Some c /\ failing c = true
    /\ forall d, sends_of (Task i) d (trace (Collect e sched count errCount)) = [].
Proof.
  intros Hcap.
  pose proof (Collect_Inv e sched count errCount) as H.
  set (s := Collect e sched count errCount) in *.
  assert (Hnj : joined (main s) = false).
  { destruct (joined (main s)) eqn:Hj; [| done].
    pose proof (inv_bound _ _ _ _ H Hj). lia. }
  assert (Hsig : Z.of_nat (wsum w_sig (Collectors e) (tasks s))
                 < failures (Collectors e)).
  { pose proof (inv_chan _ _ _ _ H) as Hch.
    pose proof (inv_spawned _ _ _ _ H) as Hsp.
    destruct (errCh s) as [ch |].
    - destruct Hch as (_ & Hc & _ & Hlen & Htal).
      destruct (main s); simpl in *; try done; lia.
    - destruct (main s); simpl in *; try done;
        (destruct (tasks s); [| done]); rewrite wsum_nil; lia. }
  destruct (wsum_sig_short _ _ Hsig) as (i & c & Hc & Hf & Hpc).
  exists i, c. split; [done | split; [done |]].
  intros d. by apply before_signal_silent with (c := c).
Qed.

(** No goroutine of the call can take a step. *)
Definition quiescent (e : Exporters) (s : State) : bool :=
  forallb (fun g => match step e g s with None => true | Some _ => false end)
          (Main :: (Task <$> seq 0 (length (tasks s)))).

Lemma quiescent_final e s g : quiescent e s = true -> step e g s = None.
Proof.
  unfold quiescent. intros Hq.
  assert (Hin : forall g', g' ∈ Main :: (Task <$> seq 0 (length (tasks s))) ->
                  step e g' s = None).
  { intros g' Hg'. rewrite forallb_forall in Hq.
    specialize (Hq g'). rewrite <- list_elem_of_In in Hq.
    specialize (Hq Hg'). by destruct (step e g' s). }
  destruct g as [| i]; [apply Hin; by left |].
  destruct (decide (i < length (tasks s))%nat) as [Hlt | Hge].
  - apply Hin. right. apply list_elem_of_fmap. exists i. split; [done |].
    apply elem_of_seq. lia.
  - unfold step. destruct (panicked s); [done |]. simpl.
    unfold step_task. by rewrite (lookup_ge_None_2 (tasks s) i) by lia.
Qed.

Lemma quiescent_exec e s sched : quiescent e s = true -> exec e sched s = s.
Proof.
  intros Hq. induction sched as [| g sched IH]; [done |].
  simpl. unfold sched_step. by rewrite (quiescent_final e s g Hq).
Qed.

Lemma TooMany_quiescent :
  quiescent TooMany.exporters (Collect TooMany.exporters TooMany.sched 0 0)
  = true.
Proof. vm_compute. reflexivity. Qed.

Lemma TooMany_last_at_signal :
  match tasks (Collect TooMany.exporters TooMany.sched 0 0) !! 1024%nat with
  | Some pc => past_signal pc = false
  | None => True
  end.
Proof. vm_compute. reflexivity. Qed.

Lemma TooMany_last_collector :
  Collectors TooMany.exporters !! 1024%nat = Some TooMany.failing_collector.
Proof. vm_compute. reflexivity. Qed.


Lemma Collect_app e sched1 sched2 count errCount :
  Collect e (sched1 ++ sched2) count errCount
  = exec e sched2 (Collect e sched1 count errCount).
Proof. unfold Collect. apply exec_app. Qed.

Lemma TooMany_failing : failing TooMany.failing_collector = true.
Proof. reflexivity. Qed.

Lemma TooMany_stationary sched' :
  Collect TooMany.exporters (TooMany.sched ++ sched') 0 0
  = Collect TooMany.exporters TooMany.sched 0 0.
Proof.
  rewrite (Collect_app TooMany.exporters TooMany.sched sched' 0 0).
  exact (quiescent_exec TooMany.exporters
           (Collect TooMany.exporters TooMany.sched 0 0) sched'
           TooMany_quiescent).
Qed.

Lemma TooMany_stuck g :
  step TooMany.exporters g (Collect TooMany.exporters TooMany.sched 0 0) = None.
Proof.
  exact (quiescent_final TooMany.exporters
           (Collect TooMany.exporters TooMany.sched 0 0) g TooMany_quiescent).
Qed.

Lemma TooMany_last_silent sched' d :
  sends_of (Task 1024) d
    (trace (Collect TooMany.exporters (TooMany.sched ++ sched') 0 0)) = [].
Proof.
  rewrite (TooMany_stationary sched').
  exact (before_signal_silent TooMany.exporters TooMany.sched 0 0 1024%nat
           TooMany.failing_collector TooMany_last_collector TooMany_failing
           TooMany_last_at_signal d).
Qed.

Lemma TooMany_some_silent sched count errCount :
  exists i c,
    Collectors TooMany.exporters !! i = Some c
    /\ forall d, sends_of (Task i) d
         (trace (Collect TooMany.exporters sched count errCount)) = [].
Proof.
  destruct (silent_beyond_capacity TooMany.exporters sched count errCount)
    as (i & c & Hc & _ & Hsilent).
  { vm_compute. reflexivity. }
  exists i, c. split; [exact Hc | exact Hsilent].
Qed.

(** C4 fails on the code, by the defect of C5 ([errCh] has the fixed
    capacity 1024).  With 1025 registered collectors that all report an
    error, there is a scheduling after which nothing of the call can run any
    more while the goroutine of the last collector has sent neither its
    [frr_collector_up] sample nor its [frr_scrape_duration_seconds] sample,
    and that stays so however the scheduling goes on; and under every
    scheduling, at every moment, some registered collector has neither
    sample in the sink. *)
Theorem C4_blocked_collector_sends_no_sample :
  Collectors TooMany.exporters !! 1024%nat = Some TooMany.failing_collector
  /\ (forall g,
        step TooMany.exporters g (Collect TooMany.exporters TooMany.sched 0 0)
        = None)
  /\ (forall sched',
        let tr := trace (Collect TooMany.exporters (TooMany.sched ++ sched') 0 0) in
        sends_of (Task 1024) frrCollectorUp tr = []
        /\ sends_of (Task 1024) frrScrapeDuration tr = [])
  /\ (forall sched count errCount,
        exists i c,
          Collectors TooMany.exporters !! i = Some c
          /\ forall d, sends_of (Task i) d
               (trace (Collect TooMany.exporters sched count errCount)) = []).
Proof.
  split; [exact TooMany_last_collector |].
  split; [exact TooMany_stuck |].
  split; [| exact TooMany_some_silent].
  intros sched'.
  split; [exact (TooMany_last_silent sched' frrCollectorUp)
         | exact (TooMany_last_silent sched' frrScrapeDuration)].
Qed.


(** ** The scrape counter across calls *)

Lemma F64_add_one_cases x :
  0 <= x <= F64.limit ->
  F64.add x 1 = (if x <? F64.limit then x + 1 else x)
  /\ 0 <= F64.add x 1 <= F64.limit.
Proof.
  intros Hx. destruct (Z.ltb_spec x F64.limit) as [Hlt | Hge].
  - rewrite F64_add_one_exact by lia. lia.
  - assert (x = F64.limit) as -> by lia. rewrite F64_add_one_stuck. lia.
Qed.

Lemma limit_pos : 0 < F64.limit.
Proof. reflexivity. Qed.

(** What a returned call leaves in the package variables. *)
Lemma returned_globals e sched count errCount :
  returned (Collect e sched count errCount) ->
  frrTotalScrapeCount (Collect e sched count errCount) = F64.add count 1
  /\ frrTotalErrorCount (Collect e sched count errCount) = errCount.
Proof.
  intros Hr. pose proof (Collect_Inv e sched count errCount) as H.
  pose proof (inv_count _ _ _ _ H) as Hc. rewrite Hr in Hc.
  split; [done | apply (inv_errcount _ _ _ _ H)].
Qed.

Lemma process_globals calls : forall count errCount count' errCount',
  0 <= count <= F64.limit ->
  process calls count errCount = Some (count', errCount') ->
  count' = Z.min (count + Z.of_nat (length calls)) F64.limit
  /\ errCount' = errCount.
Proof.
  induction calls as [| [e sched] calls IH]; intros count errCount count' errCount' Hc Hp.
  - simpl in Hp. injection Hp as <- <-. simpl. lia.
  - simpl in Hp.
    destruct (main (Collect e sched count errCount)) eqn:Hm; try done.
    destruct (returned_globals e sched count errCount Hm) as [Hcnt Hec].
    rewrite Hcnt, Hec in Hp.
    destruct (F64_add_one_cases count Hc) as [Hadd Hrange].
    apply IH in Hp as [-> ->]; [| done]. split; [| done].
    rewrite Hadd. simpl length.
    destruct (Z.ltb_spec count F64.limit); lia.
Qed.

(** A call on no collectors, scheduled to its return. *)
Lemma empty_call count errCount :
  let s := Collect (NewExporter []) (replicate 9 Main) count errCount in
  returned s
  /\ trace s = [EvSend Main (scrapesMetric (F64.add count 1)); EvJoined;
                EvClosed; EvDrained 0; EvSend Main (upMetric 0)].
Proof. split; reflexivity. Qed.

Lemma process_empty_calls n : forall count,
  0 <= count <= F64.limit ->
  process (replicate n (NewExporter [], replicate 9 Main)) count 0
  = Some (Z.min (count + Z.of_nat n) F64.limit, 0).
Proof.
  induction n as [| n IH]; intros count Hc.
  - simpl. f_equal. f_equal. lia.
  - change (replicate (S n) ?x) with (x :: replicate n x).
    cbn [process].
    destruct (empty_call count 0) as [Hr _]. cbv zeta in Hr.
    unfold returned in Hr. rewrite Hr.
    destruct (returned_globals _ _ _ _ Hr) as [-> ->].
    destruct (F64_add_one_cases count Hc) as [Hadd Hrange].
    rewrite IH by done. f_equal. f_equal. rewrite Hadd.
    destruct (Z.ltb_spec count F64.limit); lia.
Qed.

Lemma min_at_limit (L : Z) (n : nat) :
  Z.of_nat n = L -> Z.min (0 + Z.of_nat n) L = L.
Proof. lia. Qed.

(** After 2^53 calls the counter holds 2^53. *)
Lemma counter_reaches_limit :
  process (replicate (Z.to_nat F64.limit) (NewExporter [], replicate 9 Main)) 0 0
  = Some (F64.limit, 0).
Proof.
  assert (Hpos : 0 <= F64.limit) by apply Z.lt_le_incl, limit_pos.
  rewrite process_empty_calls by (split; [apply Z.le_refl | exact Hpos]).
  rewrite (min_at_limit F64.limit (Z.to_nat F64.limit) (Z2Nat.id _ Hpos)).
  reflexivity.
Qed.

Lemma scrapes_not_others :
  frrScrapesTotal <> frrUp /\ frrScrapesTotal <> frrCollectorUp
  /\ frrScrapesTotal <> frrScrapeDuration.
Proof. done. Qed.

Lemma sends_of_m_done_scrapes e count :
  sends_of Main frrScrapesTotal (m_done e count)
  = [scrapesMetric (F64.add count 1)].
Proof.
  unfold m_done, m_drained, m_closed, m_joined, m_spawn, ev_scrapes, ev_up.
  rewrite !sends_of_app. change (?x :: ?l) with ([x] ++ l) at 1.
  rewrite sends_of_app, sends_of_go. reflexivity.
Qed.

(** C3 fails on the code as stated: [frrTotalScrapeCount] is a float64, and
    at 2^53 the increment no longer changes it.  After 2^53 calls the counter
    holds 2^53, and the next call returns with the counter still at 2^53,
    having sent 2^53 again. *)
Lemma C3_counter_stuck_at_2_53 :
  process (replicate (Z.to_nat F64.limit) (NewExporter [], replicate 9 Main)) 0 0
  = Some (F64.limit, 0)
  /\ (let s := Collect (NewExporter []) (replicate 9 Main) F64.limit 0 in
      returned s
      /\ frrTotalScrapeCount s <> F64.limit + 1
      /\ frrTotalScrapeCount s = F64.limit
      /\ sends_of Main frrScrapesTotal (trace s) = [scrapesMetric F64.limit]).
Proof.
  split; [exact counter_reaches_limit |].
  vm_compute. repeat split; congruence.
Qed.

(** C3, amended: the counter is 0 at process start and after any number of
    returned calls it is that number, capped at 2^53, so it never decreases
    or resets; a call entered with the counter at [count] increments it as its
    first statement, before any goroutine is started and before anything is
    sent, by exactly 1 while [count] is below 2^53 (at 2^53 it stays); the
    [frr_scrapes_total] sample carries the incremented value, which is 1 on
    the first call. *)
Theorem C3_scrape_counter calls count errCount :
  process calls 0 0 = Some (count, errCount) ->
  count = Z.min (Z.of_nat (length calls)) F64.limit
  /\ forall e sched,
       let s := Collect e sched count errCount in
       let count' := if count <? F64.limit then count + 1 else count in
       (main s = MIncr ->
        frrTotalScrapeCount s = count /\ tasks s = [] /\ trace s = [])
       /\ (main s <> MIncr -> frrTotalScrapeCount s = count')
       /\ (forall v, EvSend Main (scrapesMetric v) ∈ trace s -> v = count')
       /\ (returned s ->
           sends_of Main frrScrapesTotal (trace s) = [scrapesMetric count'])
       /\ count <= frrTotalScrapeCount s.
Proof.
  intros Hp. pose proof limit_pos as Hpos.
  apply process_globals in Hp as [Hcount _]; [| lia]. simpl in Hcount.
  split; [done |]. intros e sched s count'.
  assert (Hrange : 0 <= count <= F64.limit) by lia.
  destruct (F64_add_one_cases count Hrange) as [Hadd _]. fold count' in Hadd.
  pose proof (Collect_Inv e sched count errCount) as H. fold s in H.
  pose proof (inv_count _ _ _ _ H) as Hc.
  split; [| split; [| split; [| split]]].
  - intros Hm. rewrite Hm in Hc. split; [done |].
    pose proof (inv_spawned _ _ _ _ H) as Hsp.
    pose proof (inv_head _ _ _ _ H) as Hhd. rewrite Hm in Hsp, Hhd.
    split; [by apply nil_length_inv | done].
  - intros Hm. rewrite <- Hadd. by destruct (main s).
  - intros v Hin.
    assert (Hq : EvSend Main (scrapesMetric v) ∈ proj Main (trace s))
      by (by apply elem_of_proj).
    unfold s in Hq. rewrite main_history in Hq.
    apply send_in_main_script in Hq as [_ [Hv | [Hv _]]].
    + injection Hv as ->. done.
    + injection Hv as Hd. by destruct scrapes_not_up.
  - intros Hr. rewrite <- sends_of_proj. unfold s.
    rewrite main_history. fold s. rewrite Hr, <- Hadd.
    apply sends_of_m_done_scrapes.
  - unfold count' in Hadd. destruct (main s), (count <? F64.limit); lia.
Qed.

Lemma C3_scrape_counter_witness :
  sends_of Main frrScrapesTotal
    (trace (Collect Scenario.abc (Scenario.round_robin 30) 0 0))
  = [scrapesMetric 1]
  /\ sends_of Main frrScrapesTotal
       (trace (Collect Scenario.abc (Scenario.round_robin 30) 1 0))
     = [scrapesMetric 2].
Proof.
  destruct (C3_scrape_counter [] 0 0 eq_refl) as [_ Hfirst].
  destruct (C3_scrape_counter [(Scenario.abc, Scenario.round_robin 30)] 1 0)
    as [_ Hsecond]; [vm_compute; reflexivity |].
  destruct (Hfirst Scenario.abc (Scenario.round_robin 30))
    as (_ & _ & _ & H1 & _).
  destruct (Hsecond Scenario.abc (Scenario.round_robin 30))
    as (_ & _ & _ & H2 & _).
  split; [apply H1 | apply H2]; vm_compute; reflexivity.
Defined.

(** ** Goroutines that were never started *)

Lemma no_goroutine_no_events e sched count errCount i :
  Collectors e !! i = None ->
  proj (Task i) (trace (Collect e sched count errCount)) = [].
Proof.
  intros Hnone.
  pose proof (Collect_Inv e sched count errCount) as H.
  set (s := Collect e sched count errCount) in *.
  pose proof (inv_tasks _ _ _ _ H i) as Hi.
  destruct (tasks s !! i) as [pc |] eqn:Hpc; [| done].
  destruct Hi as (c & Hc & _). congruence.
Qed.

Lemma only_main_events (tr : list Event) :
  (forall i, proj (Task i) tr = []) -> proj Main tr = tr.
Proof.
  intros Hno. unfold proj. induction tr as [| ev tr IH]; [done |].
  destruct (owner ev) as [| i] eqn:Hown.
  - rewrite filter_cons_True by done. f_equal. apply IH. intros i.
    specialize (Hno i). unfold proj in Hno.
    rewrite filter_cons_False in Hno; [done |]. by rewrite Hown.
  - specialize (Hno i). unfold proj in Hno.
    by rewrite filter_cons_True in Hno.
Qed.

(** C7 fails on the code as stated, for the reason C3 does: with no
    collectors registered and the counter at 2^53 (where 2^53 calls take it),
    the call sends only the two samples and [frr_up] is 0, but the counter is
    not incremented by 1. *)
Lemma C7_no_increment_at_2_53 :
  process (replicate (Z.to_nat F64.limit) (NewExporter [], replicate 9 Main)) 0 0
  = Some (F64.limit, 0)
  /\ (let s := Collect (NewExporter []) (replicate 9 Main) F64.limit 0 in
      returned s
      /\ sink s = [scrapesMetric F64.limit; upMetric 0]
      /\ frrTotalScrapeCount s <> F64.limit + 1).
Proof.
  split; [exact counter_reaches_limit |].
  vm_compute. repeat split; congruence.
Qed.

(** C7, amended: with no collectors registered, under any scheduling, nothing
    but the [frr_scrapes_total] sample and a [frr_up] sample of 0 reaches the
    sink; a call that has returned has sent exactly these two, in this order,
    and has incremented the counter, by exactly 1 when it was below 2^53; and
    the call does return. *)
Theorem C7_no_collectors sched count errCount :
  let e := NewExporter [] in
  let s := Collect e sched count errCount in
  (forall m, m ∈ sink s -> m = scrapesMetric (F64.add count 1) \/ m = upMetric 0)
  /\ (returned s ->
      sink s = [scrapesMetric (F64.add count 1); upMetric 0]
      /\ frrTotalScrapeCount s = F64.add count 1)
  /\ (0 <= count < F64.limit -> F64.add count 1 = count + 1)
  /\ returned (Collect e (replicate 9 Main) count errCount).
Proof.
  intros e s.
  pose proof (Collect_Inv e sched count errCount) as H. fold s in H.
  assert (Htr : trace s = main_script e count (main s)).
  { unfold s. rewrite <- (main_history e sched count errCount). symmetry.
    apply only_main_events. intros i. by apply no_goroutine_no_events. }
  pose proof (inv_index _ _ _ _ H) as Hidx.
  split; [| split; [| split]].
  - intros m Hm. unfold sink in Hm. rewrite Htr in Hm. revert Hm.
    destruct (main s) as [| | | k | k | | | | | |]; simpl in Hidx;
      try (assert (k = 0%nat) as -> by lia); try lia;
      vm_compute fmap; simpl;
      repeat (rewrite elem_of_cons || rewrite elem_of_nil); naive_solver.
  - intros Hr. split.
    + unfold sink. rewrite Htr, Hr. reflexivity.
    + apply (returned_globals e sched count errCount Hr).
  - apply F64_add_one_exact.
  - apply (empty_call count errCount).
Qed.

Lemma errTotal_not_sent :
  frrScrapeErrTotal <> frrScrapesTotal /\ frrScrapeErrTotal <> frrUp
  /\ frrScrapeErrTotal <> frrCollectorUp
  /\ frrScrapeErrTotal <> frrScrapeDuration.
Proof. done. Qed.

(** What the orchestrator's own code sends, whatever the goroutine. *)
Lemma send_cases e sched count errCount g m :
  EvSend g m ∈ trace (Collect e sched count errCount) ->
  (g = Main /\ (m = scrapesMetric (F64.add count 1)
                \/ m = upMetric (liveness (Collectors e))))
  \/ (exists i c d, g = Task i /\ Collectors e !! i = Some c
        /\ (m = collectorUpMetric (up_value c) (nameOf c)
            \/ m = durationMetric d (nameOf c))).
Proof.
  intros Hin. destruct g as [| i].
  - left. split; [done |].
    assert (Hp : EvSend Main m ∈ proj Main (trace (Collect e sched count errCount)))
      by (by apply elem_of_proj).
    rewrite main_history in Hp.
    apply send_in_main_script in Hp as [_ [? | [? _]]]; tauto.
  - right. destruct (Collectors e !! i) as [c |] eqn:Hc.
    + destruct (task_event_in_s_done e sched count errCount i c _ Hc Hin eq_refl)
        as [d Hd].
      apply send_in_s_done in Hd as [_ Hm]. by exists i, c, d.
    + assert (Hp : EvSend (Task i) m
                   ∈ proj (Task i) (trace (Collect e sched count errCount)))
        by (by apply elem_of_proj).
      rewrite no_goroutine_no_events in Hp by done.
      by apply elem_of_nil in Hp.
Qed.

(** C8: [Describe] declares [frr_scrape_errors_total]; in a call on any
    collectors, under any scheduling, no sample that the orchestrator's code
    sends has that descriptor and [frrTotalErrorCount] keeps the value it had
    on entry; after any number of calls it still is 0. *)
Theorem C8_scrape_errors_total_unpopulated e sched count errCount :
  let s := Collect e sched count errCount in
  frrScrapeErrTotal ∈ Describe e
  /\ (forall g m, EvSend g m ∈ trace s -> desc m <> frrScrapeErrTotal)
  /\ frrTotalErrorCount s = errCount
  /\ (forall calls count' errCount',
        process calls 0 0 = Some (count', errCount') -> errCount' = 0).
Proof.
  intros s. destruct errTotal_not_sent as (H1 & H2 & H3 & H4).
  split; [| split; [| split]].
  - unfold Describe. apply elem_of_app. left. right. by left.
  - intros g m Hin.
    apply send_cases in Hin
      as [[_ [-> | ->]] | (i & c & d & _ & _ & [-> | ->])]; simpl; congruence.
  - apply (inv_errcount _ _ _ _ (Collect_Inv e sched count errCount)).
  - intros calls count' errCount' Hp. pose proof limit_pos.
    by apply process_globals in Hp as [_ ->]; [| lia].
Qed.

(** * Further properties of the orchestrator *)


(** X2: unless more than 1024 collectors report errors, a call never
    deadlocks: whatever the goroutines have done so far, the scheduler can
    take [Collect] to its return. *)
Theorem X2_Collect_can_always_return e sched count errCount :
  (length (erring (Collectors e)) <= 1024)%nat ->
  exists sched', returned (Collect e (sched ++ sched') count errCount).
Proof.
  intros Hf.
  destruct (can_return_from e count errCount (Collect e sched count errCount))
    as [sched' Hr]; [apply Collect_Inv | |].
  - rewrite failures_erring. unfold errCh_capacity. lia.
  - exists sched'. unfold Collect. by rewrite exec_app.
Qed.

Lemma X2_Collect_can_always_return_witness :
  exists sched',
    returned (Collect Scenario.abc ([Main; Main; Task 0] ++ sched') 0 0).
Proof.
  apply (X2_Collect_can_always_return Scenario.abc [Main; Main; Task 0%nat] 0 0).
  vm_compute. lia.
Defined.

(** X3: when [Collect] has returned, every registered collector has had its
    goroutine, all of them have exited, the WaitGroup counter is back at 0,
    [errCh] is closed, and nothing of the call can run any more. *)
Theorem X3_nothing_left_running e sched count errCount :
  returned (Collect e sched count errCount) ->
  let s := Collect e sched count errCount in
  tasks s = replicate (length (Collectors e)) TExit
  /\ wg s = 0
  /\ (exists ch, errCh s = Some ch /\ closed ch = true)
  /\ (forall g, step e g s = None)
  /\ (forall sched', exec e sched' s = s).
Proof.
  intros Hr s.
  pose proof (Collect_Inv e sched count errCount) as H. fold s in H.
  pose proof (returned_joined _ Hr) as Hj.
  assert (Hfinal : forall g, step e g s = None).
  { intros g. by apply (returned_final e count errCount). }
  split; [| split; [| split; [| split]]].
  - apply list_eq. intros i.
    destruct (tasks s !! i) as [pc |] eqn:Hpc.
    + rewrite (Inv_all_exited _ _ _ s i pc H Hj Hpc). symmetry.
      apply lookup_replicate_2. apply lookup_lt_Some in Hpc.
      by rewrite <- (Inv_joined_length _ _ _ s H Hj).
    + symmetry. apply lookup_replicate_None. apply lookup_ge_None in Hpc.
      by rewrite <- (Inv_joined_length _ _ _ s H Hj).
  - by apply (inv_joined _ _ _ _ H).
  - pose proof (inv_chan _ _ _ _ H) as Hinv. fold s in Hr.
    destruct (errCh s) as [ch |].
    + exists ch. split; [done |]. destruct Hinv as (_ & _ & -> & _).
      unfold returned in Hr. by rewrite Hr.
    + unfold returned in Hr. by rewrite Hr in Hinv.
  - done.
  - intros sched'. induction sched' as [| g sched' IH]; [done |].
    simpl. unfold sched_step. by rewrite Hfinal.
Qed.

Lemma X3_nothing_left_running_witness :
  let s := Collect Scenario.abc (Scenario.round_robin 30) 0 0 in
  tasks s = [TExit; TExit; TExit] /\ wg s = 0.
Proof.
  destruct (X3_nothing_left_running Scenario.abc (Scenario.round_robin 30) 0 0)
    as (Ht & Hw & _); [vm_compute; reflexivity |].
  split; [exact Ht | exact Hw].
Defined.

(** What goroutine [i] has logged, and which metrics of its collector have
    reached the sink, in order. *)
Definition logged_by (i : nat) (ev : Event) : option (string * error) :=
  match ev with
  | EvLog j name err => if decide (j = i) then Some (name, err) else None
  | _ => None
  end.
Definition logs_of (i : nat) (tr : list Event) : list (string * error) :=
  omap (logged_by i) tr.

Definition collected_by (i : nat) (ev : Event) : option Metric :=
  match ev with
  | EvCollected j m => if decide (j = i) then Some m else None
  | _ => None
  end.
Definition collected_of (i : nat) (tr : list Event) : list Metric :=
  omap (collected_by i) tr.

Lemma omap_proj {B} (f : Event -> option B) g tr :
  (forall ev, owner ev <> g -> f ev = None) ->
  omap f (proj g tr) = omap f tr.
Proof.
  intros Hf. unfold proj. induction tr as [| ev tr IH]; [done |].
  destruct (decide (owner ev = g)) as [Hg | Hg].
  - rewrite filter_cons_True by done. simpl.
    destruct (f ev); [f_equal |]; apply IH.
  - rewrite filter_cons_False by done. rewrite IH. simpl.
    by rewrite (Hf ev Hg).
Qed.

Lemma logs_of_proj i tr : logs_of i (proj (Task i) tr) = logs_of i tr.
Proof.
  apply omap_proj. intros ev Hne. destruct ev; simpl in *; try done.
  rewrite decide_False; [done |]. congruence.
Qed.

Lemma collected_of_proj i tr :
  collected_of i (proj (Task i) tr) = collected_of i tr.
Proof.
  apply omap_proj. intros ev Hne. destruct ev; simpl in *; try done.
  rewrite decide_False; [done |]. congruence.
Qed.

Lemma logs_of_app i tr1 tr2 :
  logs_of i (tr1 ++ tr2) = logs_of i tr1 ++ logs_of i tr2.
Proof. apply omap_app. Qed.

Lemma collected_of_app i tr1 tr2 :
  collected_of i (tr1 ++ tr2) = collected_of i tr1 ++ collected_of i tr2.
Proof. apply omap_app. Qed.

Lemma not_failing_no_errors c : failing c = false -> errorsOf c = [].
Proof. unfold failing. by destruct (errorsOf c). Qed.

Lemma logs_of_s_done i c d :
  logs_of i (s_done i c d) = (fun err => (nameOf c, err)) <$> errorsOf c.
Proof.
  assert (Hlog : logs_of i (EvLog i (nameOf c) <$> errorsOf c)
                 = (fun err => (nameOf c, err)) <$> errorsOf c).
  { unfold logs_of. induction (errorsOf c) as [| err es IH]; [done |].
    simpl. rewrite decide_True by done. f_equal. apply IH. }
  assert (Hcol : logs_of i (EvCollected i <$> collects c) = []).
  { unfold logs_of. by induction (collects c). }
  rewrite s_done_tail, logs_of_app, Hcol. unfold s_tail.
  destruct (failing c) eqn:Hf.
  - rewrite !logs_of_app, Hlog.
    change (logs_of i [EvCollectReturned i; EvErrorsReturned i (errorsOf c)])
      with (@nil (string * error)).
    change (logs_of i [EvSignal i;
                       EvSend (Task i) (collectorUpMetric 0 (nameOf c))])
      with (@nil (string * error)).
    change (logs_of i [EvSend (Task i) (durationMetric d (nameOf c)); EvDone i])
      with (@nil (string * error)).
    simpl. by rewrite app_nil_r.
  - by rewrite (not_failing_no_errors c Hf).
Qed.

Lemma collected_of_s_done i c d : collected_of i (s_done i c d) = collects c.
Proof.
  assert (Hcol : collected_of i (EvCollected i <$> collects c) = collects c).
  { unfold collected_of. induction (collects c) as [| m ms IH]; [done |].
    simpl. rewrite decide_True by done. f_equal. apply IH. }
  assert (Hlog : collected_of i (EvLog i (nameOf c) <$> errorsOf c) = []).
  { unfold collected_of. by induction (errorsOf c). }
  rewrite s_done_tail, collected_of_app, Hcol. unfold s_tail.
  destruct (failing c) eqn:Hf.
  - rewrite !collected_of_app, Hlog.
    change (collected_of i [EvCollectReturned i;
                            EvErrorsReturned i (errorsOf c)])
      with (@nil Metric).
    change (collected_of i [EvSignal i;
                            EvSend (Task i) (collectorUpMetric 0 (nameOf c))])
      with (@nil Metric).
    change (collected_of i [EvSend (Task i) (durationMetric d (nameOf c));
                            EvDone i])
      with (@nil Metric).
    simpl. by rewrite app_nil_r.
  - simpl. by rewrite app_nil_r.
Qed.

(** ** A goroutine's history once it is past a given statement *)

(** An initial part that contains [x] contains all that comes before the
    first [x]. *)
Lemma prefix_reaches {A} (p rest a b : list A) x :
  p ++ rest = a ++ x :: b -> x ∉ a -> x ∈ p -> exists p', p = a ++ x :: p'.
Proof.
  intros Heq Hnot Hin.
  apply list_elem_of_split in Hin as (p1 & p2 & ->).
  rewrite <- app_assoc in Heq. simpl in Heq. symmetry in Heq.
  apply app_split_notin in Heq as (a' & -> & Ht); [| done].
  destruct a' as [| y a']; simpl in Ht.
  - exists p2. by rewrite app_nil_r.
  - injection Ht as Hx Hb.
    exists (a' ++ x :: p2). rewrite <- app_assoc. simpl. by rewrite Hx.
Qed.

Lemma EvDone_not_in_s_dur i c d : EvDone i ∉ s_dur i c d.
Proof.
  unfold s_dur, s_verdict, s_up0, s_sig, s_err, s_ret.
  destruct (failing c);
    repeat (rewrite elem_of_app || rewrite elem_of_cons
            || rewrite list_elem_of_fmap || rewrite elem_of_nil);
    naive_solver.
Qed.

Lemma duration_not_in_s_verdict i c d :
  EvSend (Task i) (durationMetric d (nameOf c)) ∉ s_verdict i c.
Proof.
  unfold s_verdict, s_up0, s_sig, s_err, s_ret.
  destruct (failing c);
    repeat (rewrite elem_of_app || rewrite elem_of_cons
            || rewrite list_elem_of_fmap || rewrite elem_of_nil);
    naive_solver.
Qed.

(** Once goroutine [i] has run its deferred [wg.Done()], its history is the
    whole of [s_done]. *)
Lemma task_history_done e sched count errCount i c :
  Collectors e !! i = Some c ->
  EvDone i ∈ trace (Collect e sched count errCount) ->
  exists d, proj (Task i) (trace (Collect e sched count errCount))
            = s_done i c d.
Proof.
  intros Hc Hin.
  destruct (task_history e count errCount sched i c Hc) as (d & rest & Heq & _).
  exists d.
  assert (Hp : EvDone i ∈ proj (Task i) (trace (Collect e sched count errCount)))
    by by apply elem_of_proj.
  unfold s_done in Heq |- *.
  destruct (prefix_reaches _ _ _ _ _ Heq (EvDone_not_in_s_dur i c d) Hp)
    as (p' & Hp').
  rewrite Hp', <- app_assoc in Heq. apply app_inv_head in Heq.
  simpl in Heq. injection Heq as Heq. apply app_eq_nil in Heq as [-> _].
  exact Hp'.
Qed.

(** Once goroutine [i] has sent its duration sample, its history holds all
    that comes before that sample in [s_done]. *)
Lemma task_history_duration e sched count errCount i c d' :
  Collectors e !! i = Some c ->
  EvSend (Task i) (durationMetric d' (nameOf c))
    ∈ trace (Collect e sched count errCount) ->
  exists p', proj (Task i) (trace (Collect e sched count errCount))
             = s_verdict i c ++ p'.
Proof.
  intros Hc Hin.
  destruct (task_history e count errCount sched i c Hc) as (d & rest & Heq & _).
  assert (Hp : EvSend (Task i) (durationMetric d' (nameOf c))
               ∈ proj (Task i) (trace (Collect e sched count errCount)))
    by by apply elem_of_proj.
  assert (Hd : d' = d).
  { assert (Hs : EvSend (Task i) (durationMetric d' (nameOf c)) ∈ s_done i c d)
      by (rewrite <- Heq, elem_of_app; by left).
    apply send_in_s_done in Hs as [_ [Hs | Hs]]; [done | by injection Hs]. }
  subst d'.
  unfold s_done, s_dur in Heq. rewrite <- app_assoc in Heq. simpl in Heq.
  destruct (prefix_reaches _ _ _ _ _ Heq (duration_not_in_s_verdict i c d) Hp)
    as (p' & Hp').
  eexists. exact Hp'.
Qed.

Lemma returned_all_done e sched count errCount i c :
  Collectors e !! i = Some c ->
  returned (Collect e sched count errCount) ->
  EvDone i ∈ trace (Collect e sched count errCount).
Proof.
  intros Hc Hr.
  destruct (task_history e count errCount sched i c Hc) as (d & rest & Heq & Hrest).
  rewrite (Hrest (returned_joined _ Hr)), app_nil_r in Heq.
  assert (Hin : EvDone i ∈ proj (Task i) (trace (Collect e sched count errCount))).
  { rewrite Heq. unfold s_done. rewrite elem_of_app. right. by left. }
  by apply elem_of_proj in Hin as [? _].
Qed.

Lemma logs_of_s_verdict i c :
  logs_of i (s_verdict i c) = (fun err => (nameOf c, err)) <$> errorsOf c.
Proof.
  rewrite <- (logs_of_s_done i c 0). unfold s_done, s_dur.
  rewrite !logs_of_app.
  change (logs_of i [EvSend (Task i) (durationMetric 0 (nameOf c))])
    with (@nil (string * error)).
  change (logs_of i [EvDone i]) with (@nil (string * error)).
  by rewrite !app_nil_r.
Qed.

Lemma logged_in_trace i tr x :
  x ∈ logs_of i tr -> exists name err, EvLog i name err ∈ tr.
Proof.
  unfold logs_of. rewrite list_elem_of_omap. intros (ev & Hin & Hev).
  destruct ev; simpl in Hev; try done.
  case_decide; [| done]. subst. eauto.
Qed.

(** X4: the goroutine of a collector logs the errors that [CollectErrors()]
    returned, in order and under the collector's [Name()], none twice, and
    nothing when there is none.  At any time it has logged an initial part
    of them; it has logged all of them by the time it sends its duration
    sample, hence when [Collect] has returned.  Every log line comes after
    that goroutine's signal on [errCh] and its up sample of 0, so a
    goroutine that has not got its signal through (one blocked on
    [errCh <- 1]) has logged nothing. *)
Theorem X4_errors_logged_in_order e sched count errCount i c :
  Collectors e !! i = Some c ->
  let s := Collect e sched count errCount in
  let lines := (fun err => (nameOf c, err)) <$> errorsOf c in
  logs_of i (trace s) `prefix_of` lines
  /\ (forall d, EvSend (Task i) (durationMetric d (nameOf c)) ∈ trace s ->
        logs_of i (trace s) = lines)
  /\ (returned s -> logs_of i (trace s) = lines)
  /\ (EvSignal i ∉ trace s -> logs_of i (trace s) = [])
  /\ (forall l1 name err l2, trace s = l1 ++ EvLog i name err :: l2 ->
        EvSignal i ∈ l1
        /\ EvSend (Task i) (collectorUpMetric 0 (nameOf c)) ∈ l1).
Proof.
  intros Hc s lines.
  destruct (task_history e count errCount sched i c Hc) as (d & rest & Heq & Hrest).
  fold s in Heq, Hrest.
  pose proof (f_equal (logs_of i) Heq) as Hlogs.
  rewrite logs_of_app, logs_of_proj, logs_of_s_done in Hlogs.
  fold lines in Hlogs.
  assert (Hpre : logs_of i (trace s) `prefix_of` lines).
  { eexists. by rewrite Hlogs. }
  assert (Hbefore : forall l1 name err l2,
            trace s = l1 ++ EvLog i name err :: l2 ->
            EvSignal i ∈ l1
            /\ EvSend (Task i) (collectorUpMetric 0 (nameOf c)) ∈ l1).
  { intros l1 name err l2 Htr.
    rewrite Htr, proj_app in Heq.
    change (EvLog i name err :: l2) with ([EvLog i name err] ++ l2) in Heq.
    rewrite proj_app in Heq.
    assert (proj (Task i) [EvLog i name err] = [EvLog i name err]) as Hown.
    { unfold proj. by rewrite filter_cons_True. }
    rewrite Hown, s_done_tail in Heq. rewrite <- !app_assoc in Heq.
    symmetry in Heq.
    assert (Hl1 : forall ev, ev ∈ proj (Task i) l1 -> ev ∈ l1).
    { intros ev Hev. by apply elem_of_proj in Hev as [? _]. }
    destruct (failing c) eqn:Hf.
    + assert (Hshape : (EvCollected i <$> collects c) ++ s_tail i c d
                = ((EvCollected i <$> collects c)
                   ++ [EvCollectReturned i; EvErrorsReturned i (errorsOf c);
                       EvSignal i;
                       EvSend (Task i) (collectorUpMetric 0 (nameOf c))])
                  ++ (EvLog i (nameOf c) <$> errorsOf c)
                  ++ [EvSend (Task i) (durationMetric d (nameOf c)); EvDone i]).
      { unfold s_tail. rewrite Hf, <- !app_assoc. reflexivity. }
      rewrite Hshape in Heq.
      apply app_split_notin in Heq as (a' & Ha & _).
      * split; apply Hl1; rewrite Ha, !elem_of_app; left; right;
          rewrite !elem_of_cons; tauto.
      * rewrite elem_of_app, list_elem_of_fmap, !elem_of_cons, elem_of_nil.
        naive_solver.
    + exfalso.
      assert (Hin : EvLog i name err
                    ∈ (EvCollected i <$> collects c) ++ s_tail i c d).
      { rewrite Heq, elem_of_app. right. by left. }
      revert Hin. unfold s_tail. rewrite Hf.
      repeat (rewrite elem_of_app || rewrite elem_of_cons
              || rewrite list_elem_of_fmap || rewrite elem_of_nil).
      naive_solver. }
  split; [exact Hpre |]. split; [| split; [| split; [| exact Hbefore]]].
  - intros d' Hsent.
    destruct (task_history_duration e sched count errCount i c d' Hc Hsent)
      as (p' & Hp').
    pose proof (f_equal (logs_of i) Hp') as Hl.
    rewrite logs_of_proj, logs_of_app, logs_of_s_verdict in Hl.
    fold s lines in Hl. apply prefix_length in Hpre.
    rewrite Hl, length_app in Hpre. rewrite Hl.
    destruct (logs_of i p'); [by rewrite app_nil_r | simpl in Hpre; lia].
  - intros Hr. rewrite (Hrest (returned_joined _ Hr)) in Hlogs.
    simpl in Hlogs. by rewrite app_nil_r in Hlogs.
  - intros Hnot. destruct (logs_of i (trace s)) as [| x l] eqn:Hl; [done |].
    exfalso. apply Hnot.
    destruct (logged_in_trace i (trace s) x) as (name & err & Hin).
    { rewrite Hl. by left. }
    apply list_elem_of_split in Hin as (l1 & l2 & Htr).
    destruct (Hbefore l1 name err l2 Htr) as [Hsig _].
    rewrite Htr, elem_of_app. by left.
Qed.

Lemma X4_errors_logged_in_order_witness :
  logs_of 1 (trace (Collect Scenario.abc (Scenario.round_robin 30) 0 0))
  = [("B", "e1"); ("B", "e2")].
Proof.
  destruct (X4_errors_logged_in_order Scenario.abc (Scenario.round_robin 30)
              0 0 1%nat Scenario.B eq_refl) as (_ & _ & Hall & _).
  apply Hall. vm_compute. reflexivity.
Defined.

(** X5: the metrics that a collector's [Collect] writes reach the sink as
    they are and in the order written, none lost and none twice: at any time
    an initial part of them has arrived, all of them when the orchestrator's
    [Collect] has returned. *)
Theorem X5_collector_metrics_forwarded e sched count errCount i c :
  Collectors e !! i = Some c ->
  let s := Collect e sched count errCount in
  collected_of i (trace s) `prefix_of` collects c
  /\ (returned s -> collected_of i (trace s) = collects c).
Proof.
  intros Hc s.
  destruct (task_history e count errCount sched i c Hc) as (d & rest & Heq & Hrest).
  fold s in Heq, Hrest.
  pose proof (f_equal (collected_of i) Heq) as Hcol.
  rewrite collected_of_app, collected_of_proj, collected_of_s_done in Hcol.
  split.
  - eexists. by rewrite Hcol.
  - intros Hr. rewrite (Hrest (returned_joined _ Hr)) in Hcol.
    simpl in Hcol. by rewrite app_nil_r in Hcol.
Qed.

Lemma X5_collector_metrics_forwarded_witness :
  collected_of 1 (trace (Collect Scenario.abc (Scenario.round_robin 30) 0 0))
  = Scenario.sample <$> [1; 2; 3].
Proof.
  destruct (X5_collector_metrics_forwarded Scenario.abc
              (Scenario.round_robin 30) 0 0 1%nat Scenario.B eq_refl)
    as (_ & Hall).
  apply Hall. vm_compute. reflexivity.
Defined.

Lemma some_succeeds_iff cs :
  failures cs < Z.of_nat (length cs) <-> exists c, c ∈ cs /\ errorsOf c = [].
Proof.
  induction cs as [| c cs IH]; simpl.
  - split; [lia |]. intros (c & Hc & _). by apply elem_of_nil in Hc.
  - pose proof (failures_bounds cs) as Hb.
    destruct (failing c) eqn:Hf.
    + split.
      * intros Hlt. destruct IH as [IH _].
        destruct IH as (c' & Hc' & He); [lia |]. exists c'. split; [by right | done].
      * intros (c' & Hc' & He). apply elem_of_cons in Hc' as [-> | Hc'].
        -- apply failing_iff in Hf. done.
        -- destruct IH as [_ IH]. specialize (IH (ex_intro _ c' (conj Hc' He))). lia.
    + split; [| lia]. intros _. exists c. split; [by left |].
      by apply not_failing_no_errors.
Qed.

(** X6: as the comment in [Collect] says, FRR is reported up exactly when at
    least one collector was successful: a call that has returned has sent
    [frr_up] 1 if and only if some registered collector's [CollectErrors()]
    was empty, and [frr_up] 0 if and only if none was (in particular when no
    collector is registered). *)
Theorem X6_up_iff_some_collector_succeeded e sched count errCount :
  returned (Collect e sched count errCount) ->
  let s := Collect e sched count errCount in
  (EvSend Main (upMetric 1) ∈ trace s
   <-> exists c, c ∈ Collectors e /\ errorsOf c = [])
  /\ (EvSend Main (upMetric 0) ∈ trace s
      <-> forall c, c ∈ Collectors e -> errorsOf c <> []).
Proof.
  intros Hr s.
  pose proof (Collect_Inv e sched count errCount) as H. fold s in H.
  assert (Hiff : forall v, EvSend Main (upMetric v) ∈ trace s
                           <-> v = liveness (Collectors e)).
  { intros v. split.
    - intros Hin.
      assert (Hp : EvSend Main (upMetric v) ∈ proj Main (trace s))
        by (by apply elem_of_proj).
      unfold s in Hp. rewrite main_history in Hp.
      apply send_in_main_script in Hp as [_ [Hv | [Hv _]]]; [| by injection Hv].
      injection Hv as Hd. by destruct scrapes_not_up.
    - intros ->. apply last_elem_of. apply (inv_last _ _ _ _ H Hr). }
  pose proof (some_succeeds_iff (Collectors e)) as Hsome.
  unfold liveness in Hiff.
  split.
  - rewrite Hiff, <- Hsome.
    destruct (Z.ltb_spec (failures (Collectors e))
                         (Z.of_nat (length (Collectors e)))); split; try done; lia.
  - rewrite Hiff. split.
    + intros Hv c Hc He.
      destruct Hsome as [_ Hsome]. specialize (Hsome (ex_intro _ c (conj Hc He))).
      destruct (Z.ltb_spec (failures (Collectors e))
                           (Z.of_nat (length (Collectors e)))); [done | lia].
    + intros Hall.
      destruct (Z.ltb_spec (failures (Collectors e))
                           (Z.of_nat (length (Collectors e)))) as [Hlt | ]; [| done].
      apply Hsome in Hlt as (c & Hc & He). by destruct (Hall c Hc).
Qed.

Lemma X6_up_iff_some_collector_succeeded_witness :
  EvSend Main (upMetric 1)
  ∈ trace (Collect Scenario.abc (Scenario.round_robin 30) 0 0).
Proof.
  destruct (X6_up_iff_some_collector_succeeded Scenario.abc
              (Scenario.round_robin 30) 0 0) as [[_ Hup] _];
    [vm_compute; reflexivity |].
  apply Hup. exists Scenario.A. split; [by left | reflexivity].
Defined.

Lemma processErrors_from_open pending errors :
  processErrors_from pending false errors = None.
Proof. revert errors. induction pending as [| v rest IH]; intros; simpl; auto. Qed.

(** X7: [processErrors] returns if and only if the channel is closed, and
    then its result is the number of values still buffered in it; on a
    channel that is open (and that nobody sends on any more) its receive
    blocks for ever once the buffer is empty. *)
Theorem X7_processErrors_result ch :
  (forall n, processErrors ch = Some n
             <-> closed ch = true /\ n = Z.of_nat (length (buf ch)))
  /\ (processErrors ch = None <-> closed ch = false).
Proof.
  unfold processErrors. destruct (closed ch).
  - rewrite processErrors_from_closed. split.
    + intros n. split; [intros [= <-]; split; [done | lia] |].
      intros [_ ->]. f_equal; lia.
    + split; done.
  - rewrite processErrors_from_open. split.
    + intros n. split; [done | by intros [? _]].
    + done.
Qed.

(** X8: every sample that the orchestrator's code sends in [Collect] or
    [runCollector] has a descriptor that [Describe] declares; the scrapes
    sample is a counter and the others are gauges; the samples of a
    collector's goroutine carry that collector's [Name()] as their one label
    value and those of [Collect] carry none. *)
Theorem X8_samples_are_described e sched count errCount g m :
  EvSend g m ∈ trace (Collect e sched count errCount) ->
  desc m ∈ Describe e
  /\ valueType m
     = (if decide (desc m = frrScrapesTotal) then CounterValue else GaugeValue)
  /\ match g with
     | Main => labelValues m = []
     | Task i => exists c, Collectors e !! i = Some c
                           /\ labelValues m = [nameOf c]
     end.
Proof.
  intros Hin.
  assert (Hhead : forall d,
            d ∈ [frrScrapesTotal; frrScrapeErrTotal; frrUp; frrScrapeDuration;
                 frrCollectorUp] -> d ∈ Describe e).
  { intros d Hd. unfold Describe. apply elem_of_app. by left. }
  apply send_cases in Hin
    as [[-> [-> | ->]] | (i & c & d & -> & Hc & [-> | ->])].
  - split; [apply Hhead; rewrite !elem_of_cons; tauto |]. by split.
  - split; [apply Hhead; rewrite !elem_of_cons; tauto |]. by split.
  - split; [apply Hhead; rewrite !elem_of_cons; tauto |].
    split; [done |]. by exists c.
  - split; [apply Hhead; rewrite !elem_of_cons; tauto |].
    split; [done |]. by exists c.
Qed.

Lemma X8_samples_are_described_witness :
  desc (collectorUpMetric 0 "B") ∈ Describe Scenario.abc.
Proof.
  assert (Hin : EvSend (Task 1) (collectorUpMetric 0 "B")
                ∈ trace (Collect Scenario.abc (Scenario.round_robin 30) 0 0)).
  { apply list_elem_of_In. vm_compute. tauto. }
  exact (proj1 (X8_samples_are_described Scenario.abc (Scenario.round_robin 30)
                  0 0 (Task 1) (collectorUpMetric 0 "B") Hin)).
Defined.

Lemma Describe_app cs1 cs2 :
  Describe (NewExporter (cs1 ++ cs2))
  = Describe (NewExporter cs1) ++ drop 5 (Describe (NewExporter cs2)).
Proof.
  unfold Describe. cbn [Collectors]. rewrite map_app, concat_app.
  reflexivity.
Qed.

(** X9: [Describe] writes the five descriptors of the orchestrator first,
    in a fixed order and with five different names, then what each
    registered collector's [Describe] writes, collector by collector in
    registration order: every descriptor of a registered collector is
    written, and registering more collectors only appends. *)
Theorem X9_Describe_order e :
  take 5 (Describe e)
  = [frrScrapesTotal; frrScrapeErrTotal; frrUp; frrScrapeDuration; frrCollectorUp]
  /\ NoDup (fqName <$> take 5 (Describe e))
  /\ (forall i c, Collectors e !! i = Some c ->
        Describe e
        = Describe (NewExporter (take i (Collectors e)))
          ++ Describe_writes (promCollector c)
          ++ drop 5 (Describe (NewExporter (drop (S i) (Collectors e)))))
  /\ (forall cs, Describe (NewExporter (Collectors e ++ cs))
                 = Describe e ++ drop 5 (Describe (NewExporter cs))).
Proof.
  split; [done |]. split; [| split].
  - change (take 5 (Describe e))
      with [frrScrapesTotal; frrScrapeErrTotal; frrUp; frrScrapeDuration;
            frrCollectorUp].
    vm_compute fmap. repeat (apply NoDup_cons; split;
      [repeat (rewrite elem_of_cons || rewrite elem_of_nil); intuition discriminate |]).
    apply NoDup_nil_2.
  - intros i c Hc. destruct e as [cs]. simpl in *.
    rewrite <- (take_drop_middle cs i c Hc) at 1.
    rewrite Describe_app. reflexivity.
  - intros cs. destruct e as [cs0]. apply Describe_app.
Qed.

(** ** Counting what reaches the sink *)

Lemma sum_seq_same (g g' : nat -> nat) n :
  (forall i, g' i = g i) ->
  sum_list (g' <$> seq 0 n) = sum_list (g <$> seq 0 n).
Proof.
  intros Hg. f_equal. apply Forall_fmap_ext_1, Forall_forall.
  intros i _. apply Hg.
Qed.

Lemma sum_seq_bump (g g' : nat -> nat) j k n :
  (j < n)%nat ->
  (forall i, g' i = g i + (if decide (i = j) then k else 0))%nat ->
  (sum_list (g' <$> seq 0 n) = sum_list (g <$> seq 0 n) + k)%nat.
Proof.
  intros Hj Hg. induction n as [| n IH]; [lia |].
  rewrite seq_S, !fmap_app, !sum_list_with_app. simpl. rewrite (Hg n).
  destruct (decide (n = j)) as [-> | Hne].
  - assert (Hsame : g' <$> seq 0 j = g <$> seq 0 j).
    { apply Forall_fmap_ext_1, Forall_forall. intros i Hi.
      apply elem_of_seq in Hi. rewrite Hg. rewrite decide_False by lia. lia. }
    rewrite Hsame. lia.
  - rewrite IH by lia. lia.
Qed.

Lemma length_omap_cons {A B} (f : A -> option B) x l :
  length (omap f (x :: l))
  = ((match f x with Some _ => 1 | None => 0 end) + length (omap f l))%nat.
Proof. simpl. by destruct (f x). Qed.

(** A history of the main goroutine and of goroutines [0 .. n-1] splits
    into theirs. *)
Lemma length_omap_by_owner {B} (f : Event -> option B) n tr :
  (forall ev i, ev ∈ tr -> owner ev = Task i -> (i < n)%nat) ->
  (length (omap f tr)
   = length (omap f (proj Main tr))
     + sum_list ((fun i => length (omap f (proj (Task i) tr))) <$> seq 0 n))%nat.
Proof.
  induction tr as [| ev tr IH]; intros Hown.
  - simpl. clear. induction n as [| n IHn]; [done |].
    rewrite seq_S, fmap_app, sum_list_with_app. simpl. lia.
  - assert (IH' := IH (fun ev' i Hin => Hown ev' i (list_elem_of_further _ _ _ Hin))).
    clear IH. unfold proj in *. rewrite length_omap_cons, IH'.
    destruct (owner ev) as [| j] eqn:Hev.
    + rewrite (filter_cons_True _ ev) by done. rewrite length_omap_cons.
      rewrite (sum_seq_same
                 (fun i => length (omap f (filter (fun ev0 => owner ev0 = Task i) tr)))
                 (fun i => length (omap f (filter (fun ev0 => owner ev0 = Task i)
                                             (ev :: tr))))).
      * lia.
      * intros i. rewrite filter_cons_False; [done |]. by rewrite Hev.
    + rewrite (filter_cons_False _ ev) by (by rewrite Hev).
      assert (Hj : (j < n)%nat) by (apply (Hown ev j); [by left | done]).
      rewrite (sum_seq_bump
                 (fun i => length (omap f (filter (fun ev0 => owner ev0 = Task i) tr)))
                 (fun i => length (omap f (filter (fun ev0 => owner ev0 = Task i)
                                             (ev :: tr))))
                 j (match f ev with Some _ => 1 | None => 0 end)%nat n Hj).
      * lia.
      * intros i. destruct (decide (i = j)) as [-> | Hne].
        -- rewrite filter_cons_True by done. rewrite length_omap_cons. lia.
        -- rewrite filter_cons_False; [lia |]. rewrite Hev. congruence.
Qed.

Lemma sum_seq_lookup_from {A} (h : A -> nat) (g : nat -> nat) (l : list A) :
  forall k, (forall i x, l !! i = Some x -> g (k + i)%nat = h x) ->
  sum_list (g <$> seq k (length l)) = sum_list (h <$> l).
Proof.
  induction l as [| x l IH]; intros k Hg; [done |].
  simpl. rewrite <- (Hg 0%nat x eq_refl), Nat.add_0_r. f_equal.
  apply IH. intros i y Hy. rewrite <- (Hg (S i) y Hy). f_equal. lia.
Qed.

Lemma sum_seq_lookup {A} (h : A -> nat) (g : nat -> nat) (l : list A) :
  (forall i x, l !! i = Some x -> g i = h x) ->
  sum_list (g <$> seq 0 (length l)) = sum_list (h <$> l).
Proof. intros Hg. by apply sum_seq_lookup_from. Qed.

Lemma sink_of_s_done i c d :
  omap sink_of (s_done i c d)
  = collects c ++ [collectorUpMetric (up_value c) (nameOf c);
                   durationMetric d (nameOf c)].
Proof.
  assert (Hcol : omap sink_of (EvCollected i <$> collects c) = collects c).
  { induction (collects c) as [| m ms IH]; [done |]. simpl. f_equal. apply IH. }
  assert (Hlog : omap sink_of (EvLog i (nameOf c) <$> errorsOf c) = []).
  { by induction (errorsOf c). }
  rewrite s_done_tail, omap_app, Hcol, up_value_failing. f_equal.
  unfold s_tail. destruct (failing c); rewrite !omap_app, ?Hlog; reflexivity.
Qed.

Lemma sink_of_m_done e count :
  omap sink_of (m_done e count)
  = [scrapesMetric (F64.add count 1); upMetric (liveness (Collectors e))].
Proof.
  assert (Hgo : forall l : list nat, omap sink_of (EvGo <$> l) = []).
  { intros l. by induction l. }
  unfold m_done, m_drained, m_closed, m_joined, m_spawn, ev_scrapes, ev_up.
  rewrite !omap_app. change (?x :: ?l) with ([x] ++ l) at 1.
  rewrite omap_app, Hgo. reflexivity.
Qed.

(** X10: when [Collect] has returned the sink has received the scrapes
    sample, the [frr_up] sample and, for each registered collector, the
    metrics of the collector itself, one up sample and one duration sample,
    and nothing else: their number is 2 plus, for each collector, the number
    of its own metrics plus 2. *)
Theorem X10_sink_accounts_for_everything e sched count errCount :
  returned (Collect e sched count errCount) ->
  let s := Collect e sched count errCount in
  length (sink s)
  = (2 + sum_list ((fun c => length (collects c) + 2) <$> Collectors e))%nat.
Proof.
  intros Hr s.
  pose proof (Collect_Inv e sched count errCount) as H. fold s in H.
  unfold sink.
  rewrite (length_omap_by_owner sink_of (length (Collectors e))).
  - unfold s at 1. rewrite main_history, Hr. simpl main_script.
    rewrite sink_of_m_done. simpl length. f_equal.
    apply sum_seq_lookup. intros i c Hc.
    destruct (task_history e count errCount sched i c Hc)
      as (d & rest & Heq & Hrest). fold s in Heq, Hrest.
    rewrite (Hrest (returned_joined _ Hr)), app_nil_r in Heq.
    rewrite Heq, sink_of_s_done, length_app. simpl. lia.
  - intros ev i Hin Hown.
    destruct (Collectors e !! i) as [c |] eqn:Hc; [by apply lookup_lt_Some in Hc |].
    exfalso.
    assert (Hp : ev ∈ proj (Task i) (trace s)) by (by apply elem_of_proj).
    unfold s in Hp. rewrite no_goroutine_no_events in Hp by done.
    by apply elem_of_nil in Hp.
Qed.

Lemma X10_sink_accounts_for_everything_witness :
  length (sink (Collect Scenario.abc (Scenario.round_robin 30) 0 0)) = 21%nat.
Proof.
  rewrite (X10_sink_accounts_for_everything Scenario.abc
             (Scenario.round_robin 30) 0 0); [reflexivity |].
  vm_compute. reflexivity.
Defined.

(** ** No call runs for ever *)

(** The number of picks of [sched] at which a goroutine ran a statement. *)
Fixpoint work (e : Exporters) (sched : list Gid) (s : State) : nat :=
  match sched with
  | [] => 0
  | g :: rest =>
      match step e g s with
      | Some s' => S (work e rest s')
      | None => work e rest s
      end
  end.

Lemma work_bounded e count errCount sched : forall s,
  Inv e count errCount s ->
  (work e sched s + steps_left e (exec e sched s) <= steps_left e s)%nat.
Proof.
  induction sched as [| g sched IH]; intros s H; [simpl; lia |].
  simpl. unfold sched_step. destruct (step e g s) as [s' |] eqn:Hstep.
  - pose proof (step_decreases e count errCount g s s' H Hstep).
    pose proof (IH s' (Inv_step e count errCount g s s' H Hstep)). lia.
  - by apply IH.
Qed.

Lemma steps_left_initial e count errCount :
  steps_left e (initial count errCount)
  = (2 * length (Collectors e) + 1033
     + sum_list ((fun c => length (collects c) + length (errorsOf c) + 8)
                   <$> Collectors e))%nat.
Proof.
  unfold steps_left. simpl. rewrite Nat.sub_0_r. f_equal.
  induction (Collectors e) as [| c cs IH]; [done |].
  simpl. by rewrite IH.
Qed.

(** X11: no scheduling makes a call run for ever: whatever the scheduler
    picks, the goroutines of one call run at most
    [2 n + 1033 + sum (metrics + errors + 8)] statements in all, for [n]
    collectors with their numbers of metrics and of errors. *)
Theorem X11_bounded_work e sched count errCount :
  (work e sched (initial count errCount)
   <= 2 * length (Collectors e) + 1033
      + sum_list ((fun c => length (collects c) + length (errorsOf c) + 8)
                    <$> Collectors e))%nat.
Proof.
  rewrite <- (steps_left_initial e count errCount).
  pose proof (work_bounded e count errCount sched _ (Inv_initial e count errCount)).
  lia.
Qed.

(** ** Starting the goroutines *)

(** The collectors for which a goroutine has been started, in order. *)
Definition started_by (ev : Event) : option nat :=
  match ev with EvGo i => Some i | _ => None end.
Definition started (tr : list Event) : list nat := omap started_by tr.

Lemma app_split_cases {A} (a b l1 l2 : list A) x :
  a ++ b = l1 ++ x :: l2 ->
  (exists m, a = l1 ++ x :: m) \/ (exists m, l1 = a ++ m /\ x ∈ b).
Proof.
  revert l1. induction a as [| y a IH]; intros l1 Heq; simpl in Heq.
  - right. exists l1. split; [done |]. rewrite Heq, elem_of_app. right. by left.
  - destruct l1 as [| z l1]; simpl in Heq; injection Heq as -> Heq.
    + left. by exists a.
    + destruct (IH l1 Heq) as [[m ->] | (m & -> & Hin)].
      * left. by exists m.
      * right. by exists m.
Qed.

(** A statement adds to the history only events of the goroutine that runs
    it, and that goroutine has been started. *)
Lemma step_trace e g s s' :
  step e g s = Some s' ->
  exists evs, trace s' = trace s ++ evs
              /\ Forall (fun ev => owner ev = g) evs
              /\ (forall i, g = Task i -> is_Some (tasks s !! i)).
Proof.
  unfold step. destruct (panicked s); [done |].
  destruct g as [| i]; simpl.
  - intros Hs. destruct (step_main e s) as [s1 |] eqn:H1; simplify_eq/=.
    unfold step_main in H1.
    destruct (main s); repeat case_match; simplify_eq/=;
      (eexists; split; [first [reflexivity | symmetry; apply app_nil_r] |];
       split; [by repeat constructor | done]).
  - intros Hs. destruct (step_task e i s) as [s1 |] eqn:H1; simplify_eq/=.
    unfold step_task in H1.
    destruct (tasks s !! i) as [pc |] eqn:Hpc; [| done].
    destruct (Collectors e !! i) as [c |]; [| done].
    destruct pc; repeat case_match; simplify_eq/=;
      (eexists; split; [first [reflexivity | symmetry; apply app_nil_r] |];
       split; [by repeat constructor | by intros ? [= <-]]).
Qed.

Lemma started_main_script e count pc :
  started (main_script e count pc) = seq 0 (spawned e pc).
Proof.
  assert (Hgo : forall l : list nat, started (EvGo <$> l) = l).
  { intros l. unfold started. induction l as [| x l IH]; [done |].
    simpl. f_equal. apply IH. }
  assert (Hspawn : forall k, started (m_spawn count k) = seq 0 k).
  { intros k. unfold m_spawn. change (?x :: ?l) with ([x] ++ l).
    unfold started. rewrite omap_app. fold (started (EvGo <$> seq 0 k)).
    by rewrite Hgo. }
  unfold started in *.
  destruct pc; simpl; try done;
    unfold m_done, m_drained, m_closed, m_joined;
    rewrite ?omap_app, ?Hspawn; simpl; by rewrite ?app_nil_r.
Qed.

(** X12: the goroutines are started once each and in registration order, as
    many as there are collectors once the loop is over; and a collector's
    goroutine does nothing before its [go] statement: every event of
    goroutine [i] in the history comes after the start of [i]. *)
Theorem X12_goroutines_started_in_order e sched count errCount :
  let s := Collect e sched count errCount in
  started (trace s) = seq 0 (length (tasks s))
  /\ (length (tasks s) <= length (Collectors e))%nat
  /\ (returned s -> started (trace s) = seq 0 (length (Collectors e)))
  /\ (forall l1 ev l2 i, trace s = l1 ++ ev :: l2 -> owner ev = Task i ->
        EvGo i ∈ l1).
Proof.
  intros s.
  assert (Hstarted : forall sched',
            started (trace (Collect e sched' count errCount))
            = seq 0 (length (tasks (Collect e sched' count errCount)))).
  { intros sched'.
    pose proof (Collect_Inv e sched' count errCount) as H.
    unfold started. rewrite <- (omap_proj started_by Main).
    - rewrite main_history. fold (started (main_script e count
                                     (main (Collect e sched' count errCount)))).
      by rewrite started_main_script, (inv_spawned _ _ _ _ H).
    - intros ev Hne. destruct ev; simpl in *; done. }
  pose proof (Collect_Inv e sched count errCount) as H. fold s in H.
  pose proof (inv_spawned _ _ _ _ H) as Hsp.
  pose proof (inv_index _ _ _ _ H) as Hidx.
  split; [apply Hstarted |]. split; [| split].
  - rewrite Hsp. destruct (main s); simpl in *; lia.
  - intros Hr. unfold s. rewrite Hstarted. fold s.
    by rewrite (Inv_joined_length _ _ _ s H (returned_joined _ Hr)).
  - unfold s. clear -Hstarted. unfold Collect.
    induction sched as [| g sched IH] using rev_ind; intros l1 ev l2 i Htr Hown.
    + simpl in Htr. by destruct l1.
    + rewrite exec_app in Htr. simpl in Htr. unfold sched_step in Htr.
      set (s := exec e sched (initial count errCount)) in *.
      destruct (step e g s) as [s' |] eqn:Hstep; [| by apply (IH l1 ev l2 i)].
      destruct (step_trace e g s s' Hstep) as (evs & Htr' & Hall & Hg).
      rewrite Htr' in Htr.
      apply app_split_cases in Htr as [[m Hm] | (m & -> & Hin)].
      * by apply (IH l1 ev m i).
      * rewrite Forall_forall in Hall. rewrite (Hall ev Hin) in Hown. subst g.
        destruct (Hg i eq_refl) as [pc Hpc]. apply lookup_lt_Some in Hpc.
        apply elem_of_app. left.
        pose proof (Hstarted sched) as Hst. unfold Collect in Hst. fold s in Hst.
        assert (Hi : i ∈ started (trace s)).
        { rewrite Hst. apply elem_of_seq. lia. }
        unfold started in Hi. apply list_elem_of_omap in Hi as (ev' & Hev' & Hsome).
        destruct ev'; simpl in Hsome; try done. by injection Hsome as ->.
Qed.

(** ** The WaitGroup *)

Lemma wsum_live_filter cs ts :
  (length ts <= length cs)%nat ->
  wsum w_live cs ts = length (filter (fun pc => pc <> TExit) ts).
Proof.
  revert ts. induction cs as [| c cs IH]; intros [| t ts] Hlen; simpl in *;
    try done; try lia.
  destruct (decide (t = TExit)) as [-> | Hne].
  - rewrite filter_cons_False by naive_solver. simpl. apply IH. lia.
  - rewrite filter_cons_True by done. simpl. rewrite IH by lia.
    by destruct t.
Qed.

(** X13: the WaitGroup counter is the number of started goroutines that have
    not yet run their deferred [wg.Done()], plus one between [wg.Add(1)] and
    the [go] statement that follows it; and [wg.Wait()] has returned exactly
    when the main goroutine is past it, at which point a goroutine has been
    started for every collector and all of them have exited. *)
Theorem X13_waitgroup_counts_live_goroutines e sched count errCount :
  let s := Collect e sched count errCount in
  wg s = Z.of_nat (length (filter (fun pc => pc <> TExit) (tasks s)))
         + match main s with MGo _ => 1 | _ => 0 end
  /\ (EvJoined ∈ trace s <-> joined (main s) = true)
  /\ (EvJoined ∈ trace s ->
      tasks s = replicate (length (Collectors e)) TExit).
Proof.
  intros s.
  pose proof (Collect_Inv e sched count errCount) as H. fold s in H.
  pose proof (inv_spawned _ _ _ _ H) as Hsp.
  pose proof (inv_index _ _ _ _ H) as Hidx.
  assert (Hj : EvJoined ∈ trace s <-> joined (main s) = true).
  { assert (Hp : EvJoined ∈ trace s <-> EvJoined ∈ proj Main (trace s)).
    { rewrite elem_of_proj. naive_solver. }
    rewrite Hp. unfold s. rewrite main_history. fold s.
    destruct (main s); simpl;
      unfold m_done, m_drained, m_closed, m_joined, m_spawn, ev_scrapes, ev_up;
      repeat (rewrite elem_of_app || rewrite elem_of_cons
              || rewrite list_elem_of_fmap || rewrite elem_of_nil);
      naive_solver. }
  split; [| split; [done |]].
  - rewrite (inv_wg _ _ _ _ H), wsum_live_filter; [done |].
    rewrite Hsp. destruct (main s); simpl in *; lia.
  - intros Hin. apply Hj in Hin. apply list_eq. intros i.
    destruct (tasks s !! i) as [pc |] eqn:Hpc.
    + rewrite (Inv_all_exited _ _ _ s i pc H Hin Hpc). symmetry.
      apply lookup_replicate_2. apply lookup_lt_Some in Hpc.
      by rewrite <- (Inv_joined_length _ _ _ s H Hin).
    + symmetry. apply lookup_replicate_None. apply lookup_ge_None in Hpc.
      by rewrite <- (Inv_joined_length _ _ _ s H Hin).
Qed.

(** X14: the goroutine of a registered collector never sends more than one
    [frr_collector_up] sample nor more than one
    [frr_scrape_duration_seconds] sample.  Once it has run its deferred
    [wg.Done()], which it has when [Collect] has returned, it has sent
    exactly one of each, labelled with the collector's [Name()], the
    duration sample whether or not the collector reported errors. *)
Theorem X14_own_samples_once_exited e sched count errCount i c :
  Collectors e !! i = Some c ->
  let s := Collect e sched count errCount in
  (length (sends_of (Task i) frrCollectorUp (trace s)) <= 1)%nat
  /\ (length (sends_of (Task i) frrScrapeDuration (trace s)) <= 1)%nat
  /\ (EvDone i ∈ trace s ->
      sends_of (Task i) frrCollectorUp (trace s)
        = [collectorUpMetric (up_value c) (nameOf c)]
      /\ exists d, sends_of (Task i) frrScrapeDuration (trace s)
                   = [durationMetric d (nameOf c)])
  /\ (returned s -> EvDone i ∈ trace s).
Proof.
  intros Hc s.
  destruct (task_history e count errCount sched i c Hc) as (d & rest & Heq & _).
  fold s in Heq.
  pose proof (f_equal (sends_of (Task i) frrCollectorUp) Heq) as Hup.
  pose proof (f_equal (sends_of (Task i) frrScrapeDuration) Heq) as Hdur.
  rewrite sends_of_app, sends_of_proj in Hup, Hdur.
  rewrite sends_of_s_done_up in Hup. rewrite sends_of_s_done_duration in Hdur.
  split; [| split; [| split]].
  - apply (f_equal length) in Hup. rewrite length_app in Hup. simpl in Hup. lia.
  - apply (f_equal length) in Hdur. rewrite length_app in Hdur. simpl in Hdur. lia.
  - intros Hdone.
    destruct (task_history_done e sched count errCount i c Hc Hdone) as (d' & Hd').
    fold s in Hd'. split; [| exists d'].
    + by rewrite <- sends_of_proj, Hd', sends_of_s_done_up.
    + by rewrite <- sends_of_proj, Hd', sends_of_s_done_duration.
  - intros Hr. by apply (returned_all_done e sched count errCount i c).
Qed.

Lemma X14_own_samples_once_exited_witness :
  let s := Collect Scenario.abc (Scenario.round_robin 30) 0 0 in
  sends_of (Task 1) frrCollectorUp (trace s) = [collectorUpMetric 0 "B"]
  /\ exists d, sends_of (Task 1) frrScrapeDuration (trace s)
               = [durationMetric d "B"].
Proof.
  destruct (X14_own_samples_once_exited Scenario.abc
              (Scenario.round_robin 30) 0 0 1%nat Scenario.B eq_refl)
    as (_ & _ & Hexact & Hdone).
  apply Hexact. apply Hdone. reflexivity.
Defined.
